(** * json-rules-engine: a shallow embedding of [src/src/core.rs] and
    [src/src/constraint.rs].

    Rust data are rendered as follows:
    - [i64] and [u64] as [Z], [usize] as [nat];
    - [f64] as the kernel's IEEE-754 binary64 floats ([PrimFloat.float]);
      Rust's [==], [<], [<=], [abs] and [-] on [f64] are [PrimFloat.eqb],
      [ltb], [leb], [abs] and [sub];
    - [String] as [string];
    - [serde_json::Value] as the inductive [Value.t];
    - the engine's [HashMap<String, (Instant, u64)>] as a [gmap];
    - [Instant] as a count of nanoseconds ([N]). *)

From Stdlib Require Import ZArith String Ascii.
From Stdlib Require Import PrimFloat SpecFloat FloatOps.
From stdpp Require Import base list gmap strings pretty.

Local Open Scope Z_scope.
Set Warnings "-register-all".

(* ===================================================================== *)
(** ** Status (core.rs, lines 39-82) *)
(* ===================================================================== *)

Inductive Status := Met | NotMet | Unknown.

Definition Status_eqb (a b : Status) : bool :=
  match a, b with
  | Met, Met | NotMet, NotMet | Unknown, Unknown => true
  | _, _ => false
  end.

(** [impl BitAnd for Status] *)
Definition bitand (self rhs : Status) : Status :=
  match self, rhs with
  | Met, Met => Met
  | NotMet, _ | _, NotMet => NotMet
  | _, _ => Unknown
  end.

(** [impl BitOr for Status] *)
Definition bitor (self rhs : Status) : Status :=
  match self, rhs with
  | NotMet, NotMet => NotMet
  | Met, _ | _, Met => Met
  | _, _ => Unknown
  end.

(** [impl Not for Status] *)
Definition status_not (self : Status) : Status :=
  match self with
  | Met => NotMet
  | NotMet => Met
  | Unknown => Unknown
  end.

Infix "&&&" := bitand (at level 40, left associativity).
Infix "|||" := bitor (at level 50, left associativity).

(* ===================================================================== *)
(** ** serde_json values *)
(* ===================================================================== *)

(** [serde_json::Number]: a non-negative integer ([u64]), a negative
    integer ([i64]) or a float. *)
Inductive Number := PosInt (n : Z) | NegInt (n : Z) | Float (f : float).

Module Value.
(** [serde_json::Value]; an [Object] is a map from keys to values,
    kept as an association list with unique keys. *)
Inductive t :=
| Null
| Bool (b : bool)
| Number (n : Number)
| String (s : string)
| Array (l : list t)
| Object (m : list (string * t)).
End Value.
Abbreviation Value := Value.t.

Definition i64_MAX : Z := 9223372036854775807.
Definition usize_MAX : Z := 18446744073709551615.

(** [n as f64] for an integer [n]: rounding to nearest, ties to even. *)
Definition int_as_f64 (n : Z) : float :=
  SF2Prim (binary_normalize prec emax n 0 false).

Definition f64_EPSILON : float := 0x1p-52%float.

Definition as_str (v : Value) : option string :=
  match v with Value.String s => Some s | _ => None end.

Definition as_bool (v : Value) : option bool :=
  match v with Value.Bool b => Some b | _ => None end.

Definition as_array (v : Value) : option (list Value) :=
  match v with Value.Array l => Some l | _ => None end.

Definition as_i64 (v : Value) : option Z :=
  match v with
  | Value.Number (PosInt n) => if n <=? i64_MAX then Some n else None
  | Value.Number (NegInt n) => Some n
  | _ => None
  end.

Definition as_f64 (v : Value) : option float :=
  match v with
  | Value.Number (PosInt n) => Some (int_as_f64 n)
  | Value.Number (NegInt n) => Some (int_as_f64 n)
  | Value.Number (Float f) => Some f
  | _ => None
  end.

(** *** [Value::pointer] (serde_json) *)

Fixpoint split_aux (sep : ascii) (s cur : string) : list string :=
  match s with
  | EmptyString => [cur]
  | String c s' =>
      if ascii_dec c sep then cur :: split_aux sep s' EmptyString
      else split_aux sep s' (String.append cur (String c EmptyString))
  end.

(** [s.split(sep)]: the pieces between separators, empty ones included. *)
Definition split (sep : ascii) (s : string) : list string :=
  split_aux sep s EmptyString.

(** [s.replace(ab, rep)] for a two-character pattern [ab]. *)
Fixpoint replace2 (a b : ascii) (rep s : string) : string :=
  match s with
  | EmptyString => EmptyString
  | String c s' =>
      if ascii_dec c a then
        match s' with
        | String c2 s'' =>
            if ascii_dec c2 b then String.append rep (replace2 a b rep s'')
            else String c (replace2 a b rep s')
        | EmptyString => String c EmptyString
        end
      else String c (replace2 a b rep s')
  end.

Definition digit_value (c : ascii) : option Z :=
  let n := Z.of_nat (nat_of_ascii c) - 48 in
  if (0 <=? n) && (n <=? 9) then Some n else None.

Fixpoint parse_digits (s : string) (acc : Z) : option Z :=
  match s with
  | EmptyString => Some acc
  | String c s' =>
      match digit_value c with
      | Some d => parse_digits s' (acc * 10 + d)
      | None => None
      end
  end.

(** [s.parse::<usize>()] on a string without a sign. *)
Definition parse_usize (s : string) : option Z :=
  match s with
  | EmptyString => None
  | _ => match parse_digits s 0 with
         | Some n => if n <=? usize_MAX then Some n else None
         | None => None
         end
  end.

Definition parse_index (s : string) : option Z :=
  match s with
  | String "+" _ => None
  | String "0" (String _ _) => None
  | _ => parse_usize s
  end.

(** [Vec::get] *)
Fixpoint vec_get {A} (l : list A) (i : Z) : option A :=
  match l with
  | [] => None
  | x :: l' => if i =? 0 then Some x else vec_get l' (i - 1)
  end.

(** [Map::get] *)
Fixpoint map_get {A} (m : list (string * A)) (k : string) : option A :=
  match m with
  | [] => None
  | (k', x) :: m' => if String.eqb k k' then Some x else map_get m' k
  end.

Fixpoint pointer_tokens (target : Value) (tokens : list string)
  : option Value :=
  match tokens with
  | [] => Some target
  | token :: rest =>
      let next :=
        match target with
        | Value.Object m => map_get m token
        | Value.Array l =>
            match parse_index token with
            | Some x => vec_get l x
            | None => None
            end
        | _ => None
        end in
      match next with
      | Some t => pointer_tokens t rest
      | None => None
      end
  end.

Definition unescape (x : string) : string :=
  replace2 "~" "0" "~" (replace2 "~" "1" "/" x).

Definition pointer (self : Value) (p : string) : option Value :=
  match p with
  | EmptyString => Some self
  | String "/" _ => pointer_tokens self (map unescape (tail (split "/" p)))
  | _ => None
  end.

(* ===================================================================== *)
(** ** Constraint (core.rs, lines 524-1027) *)
(* ===================================================================== *)

Inductive Constraint :=
| StringEquals (s : string)
| StringNotEquals (s : string)
| StringContains (s : string)
| StringContainsAll (s : list string)
| StringContainsAny (s : list string)
| StringDoesNotContain (s : string)
| StringDoesNotContainAny (s : list string)
| StringIn (ss : list string)
| StringNotIn (ss : list string)
| IntEquals (num : Z)
| IntNotEquals (num : Z)
| IntContains (num : Z)
| IntContainsAll (nums : list Z)
| IntContainsAny (nums : list Z)
| IntDoesNotContain (num : Z)
| IntDoesNotContainAny (nums : list Z)
| IntIn (nums : list Z)
| IntNotIn (nums : list Z)
| IntInRange (start end_ : Z)
| IntNotInRange (start end_ : Z)
| IntLessThan (num : Z)
| IntLessThanInclusive (num : Z)
| IntGreaterThan (num : Z)
| IntGreaterThanInclusive (num : Z)
| FloatEquals (num : float)
| FloatNotEquals (num : float)
| FloatContains (num : float)
| FloatDoesNotContain (num : float)
| FloatIn (nums : list float)
| FloatNotIn (nums : list float)
| FloatInRange (start end_ : float)
| FloatNotInRange (start end_ : float)
| FloatLessThan (num : float)
| FloatLessThanInclusive (num : float)
| FloatGreaterThan (num : float)
| FloatGreaterThanInclusive (num : float)
| BoolEquals (b : bool).

(** [if cond { Status::Met } else { Status::NotMet }] *)
Definition met (cond : bool) : Status := if cond then Met else NotMet.

(** [Iterator::filter_map] *)
Fixpoint filter_map {A B} (f : A -> option B) (l : list A) : list B :=
  match l with
  | [] => []
  | x :: l' =>
      match f x with
      | Some y => y :: filter_map f l'
      | None => filter_map f l'
      end
  end.

(** [v.as_array().map(|x| x.iter().filter_map(conv).collect())] *)
Definition array_of {B} (conv : Value -> option B) (v : Value)
  : option (list B) :=
  match as_array v with
  | Some x => Some (filter_map conv x)
  | None => None
  end.

(** [Vec::contains] for the three element types. *)
Definition contains_str (v : list string) (s : string) : bool :=
  existsb (String.eqb s) v.
Definition contains_i64 (v : list Z) (n : Z) : bool := existsb (Z.eqb n) v.
Definition contains_f64 (v : list float) (n : float) : bool :=
  existsb (fun y => PrimFloat.eqb y n) v.

(** [if let Some(v) = conv { body(v) } else { Status::NotMet }] *)
Definition if_some {A} (o : option A) (body : A -> Status) : Status :=
  match o with Some x => body x | None => NotMet end.

(** [Constraint::check_value] of core.rs. *)
Definition check_constraint (self : Constraint) (v : Value) : Status :=
  match self with
  | StringEquals s => if_some (as_str v) (fun v => met (String.eqb v s))
  | StringNotEquals s =>
      if_some (as_str v) (fun v => met (negb (String.eqb v s)))
  | StringContains s =>
      if_some (array_of as_str v) (fun v => met (contains_str v s))
  | StringContainsAll s =>
      if_some (array_of as_str v)
        (fun v => met (forallb (fun y => contains_str v y) s))
  | StringContainsAny s =>
      if_some (array_of as_str v)
        (fun v => met (existsb (fun y => contains_str v y) s))
  | StringDoesNotContain s =>
      if_some (array_of as_str v) (fun v => met (negb (contains_str v s)))
  | StringDoesNotContainAny s =>
      if_some (array_of as_str v)
        (fun v => met (forallb (fun y => negb (contains_str v y)) s))
  | StringIn ss =>
      if_some (as_str v) (fun v => met (existsb (fun s => String.eqb s v) ss))
  | StringNotIn ss =>
      if_some (as_str v)
        (fun v => met (forallb (fun s => negb (String.eqb s v)) ss))
  | IntEquals num => if_some (as_i64 v) (fun v => met (v =? num))
  | IntNotEquals num => if_some (as_i64 v) (fun v => met (negb (v =? num)))
  | IntContains num =>
      if_some (array_of as_i64 v) (fun v => met (contains_i64 v num))
  | IntContainsAll nums =>
      if_some (array_of as_i64 v)
        (fun v => met (forallb (fun num => contains_i64 v num) nums))
  | IntContainsAny nums =>
      if_some (array_of as_i64 v)
        (fun v => met (existsb (fun num => contains_i64 v num) nums))
  | IntDoesNotContain num =>
      if_some (array_of as_i64 v) (fun v => met (negb (contains_i64 v num)))
  | IntDoesNotContainAny nums =>
      if_some (array_of as_i64 v)
        (fun v => met (forallb (fun num => negb (contains_i64 v num)) nums))
  | IntIn nums =>
      if_some (as_i64 v) (fun v => met (existsb (fun num => num =? v) nums))
  | IntNotIn nums =>
      if_some (as_i64 v)
        (fun v => met (forallb (fun num => negb (num =? v)) nums))
  | IntInRange start end_ =>
      if_some (as_i64 v) (fun v => met ((start <=? v) && (v <=? end_)))
  | IntNotInRange start end_ =>
      if_some (as_i64 v)
        (fun v => if (start <=? v) && (v <=? end_) then NotMet else Met)
  | IntLessThan num => if_some (as_i64 v) (fun v => met (v <? num))
  | IntLessThanInclusive num => if_some (as_i64 v) (fun v => met (v <=? num))
  | IntGreaterThan num => if_some (as_i64 v) (fun v => met (num <? v))
  | IntGreaterThanInclusive num =>
      if_some (as_i64 v) (fun v => met (num <=? v))
  | FloatEquals num => if_some (as_f64 v) (fun v => met (PrimFloat.eqb v num))
  | FloatNotEquals num =>
      if_some (as_f64 v) (fun v => met (negb (PrimFloat.eqb v num)))
  | FloatContains num =>
      if_some (array_of as_f64 v) (fun v => met (contains_f64 v num))
  | FloatDoesNotContain num =>
      if_some (array_of as_f64 v) (fun v => met (negb (contains_f64 v num)))
  | FloatIn nums =>
      if_some (as_f64 v)
        (fun v => met (existsb (fun num => PrimFloat.eqb num v) nums))
  | FloatNotIn nums =>
      if_some (as_f64 v)
        (fun v => met (forallb (fun num => negb (PrimFloat.eqb num v)) nums))
  | FloatInRange start end_ =>
      if_some (as_f64 v)
        (fun v => met (PrimFloat.leb start v && PrimFloat.leb v end_))
  | FloatNotInRange start end_ =>
      if_some (as_f64 v)
        (fun v => if PrimFloat.leb start v && PrimFloat.leb v end_
                  then NotMet else Met)
  | FloatLessThan num => if_some (as_f64 v) (fun v => met (PrimFloat.ltb v num))
  | FloatLessThanInclusive num =>
      if_some (as_f64 v) (fun v => met (PrimFloat.leb v num))
  | FloatGreaterThan num =>
      if_some (as_f64 v) (fun v => met (PrimFloat.ltb num v))
  | FloatGreaterThanInclusive num =>
      if_some (as_f64 v) (fun v => met (PrimFloat.leb num v))
  | BoolEquals b => if_some (as_bool v) (fun v => met (Bool.eqb v b))
  end.

(** [(v - num).abs() < f64::EPSILON] and [(v - num).abs() > f64::EPSILON] *)
Definition float_close (v num : float) : bool :=
  PrimFloat.ltb (PrimFloat.abs (PrimFloat.sub v num)) f64_EPSILON.
Definition float_apart (v num : float) : bool :=
  PrimFloat.ltb f64_EPSILON (PrimFloat.abs (PrimFloat.sub v num)).

Module ConstraintRs.
(** [Constraint::check_value] of constraint.rs.  Its four float
    equality arms compare with the tolerance [f64::EPSILON]; every other
    arm is the same as in core.rs. *)
Definition check_value (self : Constraint) (v : Value) : Status :=
  match self with
  | FloatEquals num => if_some (as_f64 v) (fun v => met (float_close v num))
  | FloatNotEquals num =>
      if_some (as_f64 v) (fun v => met (float_apart v num))
  | FloatIn nums =>
      if_some (as_f64 v)
        (fun v => met (existsb (fun num => float_close v num) nums))
  | FloatNotIn nums =>
      if_some (as_f64 v)
        (fun v => met (forallb (fun num => float_apart v num) nums))
  | _ => check_constraint self v
  end.
End ConstraintRs.

(* ===================================================================== *)
(** ** Conditions and their results (core.rs, lines 94-116, 388-519,
       1032-1047) *)
(* ===================================================================== *)

Module Condition.
Inductive t :=
| And (and : list t)
| Or (or : list t)
| AtLeast (should_minimum_meet : nat) (conditions : list t)
| Condition (field : string) (constraint : Constraint)
| Eval (expr : string).
End Condition.

Inductive ConditionResult := mkConditionResult {
  name : string;
  status : Status;
  children : list ConditionResult
}.

(** [format!("At least meet {} of {}", min, len)] *)
Definition at_least_name (min len : nat) : string :=
  String.append "At least meet "
    (String.append (pretty (N.of_nat min))
       (String.append " of " (pretty (N.of_nat len)))).

(** The [path] of a [Condition::Condition] leaf: a leading ["/"] is
    added when [field] has none. *)
Definition field_path (field : string) : string :=
  if String.prefix "/" field then field else String.append "/" field.

(** Result of [rhai_engine.eval_with_scope::<bool>(&mut scope, expr)] with
    the facts bound to [facts]: [None] stands for an [Err]. *)
Definition RhaiEval := string -> Value -> option bool.

(** [Condition::check_value] *)
Fixpoint check_value (rhai_eval : RhaiEval) (self : Condition.t) (info : Value)
  : ConditionResult :=
  match self with
  | Condition.And and =>
      let children := map (fun c => check_value rhai_eval c info) and in
      let status := fold_left (fun st r => st &&& status r) children Met in
      mkConditionResult "And" status children
  | Condition.Or or =>
      let children := map (fun c => check_value rhai_eval c info) or in
      let status := fold_left (fun st r => st ||| status r) children NotMet in
      mkConditionResult "Or" status children
  | Condition.AtLeast should_minimum_meet conditions =>
      let children := map (fun c => check_value rhai_eval c info) conditions in
      let met_count :=
        fold_left (fun n r => if Status_eqb (status r) Met then S n else n)
          children 0%nat in
      let status :=
        if Nat.leb should_minimum_meet met_count then Met else NotMet in
      mkConditionResult (at_least_name should_minimum_meet (length conditions))
        status children
  | Condition.Condition field constraint =>
      let path := field_path field in
      let status :=
        match pointer info path with
        | Some s => check_constraint constraint s
        | None => Unknown
        end in
      mkConditionResult field status []
  | Condition.Eval expr =>
      let status :=
        match rhai_eval expr info with
        | Some true => Met
        | _ => NotMet
        end in
      mkConditionResult "Eval" status []
  end.

(* ===================================================================== *)
(** ** Events and rules (core.rs, lines 118-223) *)
(* ===================================================================== *)

Record EventParams := mkEventParams {
  ty : string;
  title : string;
  message : string
}.

Inductive Event :=
| Message (params : EventParams)
| PostToCallbackUrl (callback_url : string) (params : EventParams)
    (app_data : list (string * Value))
| EmailNotification (from : string) (to : list string) (params : EventParams).

Record CoalescenceEvent := mkCoalescenceEvent {
  coalescence : option N;
  coalescence_group : option string;
  event : Event
}.

Record Rule := mkRule {
  conditions : Condition.t;
  events : list CoalescenceEvent
}.

Module RuleResult.
Record t := mk {
  condition_result : ConditionResult;
  events : list CoalescenceEvent
}.
End RuleResult.
Abbreviation RuleResult := RuleResult.t.

(** Result of [mustache::compile_str(template).and_then(|t|
    t.render_to_string(info))]: [None] stands for an [Err]. *)
Definition Render := string -> Value -> option string.

Section Rendering.
Variable render : Render.
Variable info : Value.

(** [if let Ok(s) = render(t) { t = s }] *)
Definition render_or_keep (t : string) : string :=
  match render t info with Some s => s | None => t end.

Definition render_params (p : EventParams) : EventParams :=
  mkEventParams (ty p) (title p) (render_or_keep (message p)).

(** One pass of the loop body of [Rule::check_value] on an event. *)
Definition render_event (ce : CoalescenceEvent) : CoalescenceEvent :=
  let event' :=
    match event ce with
    | Message p => Message (render_params p)
    | PostToCallbackUrl callback_url p app_data =>
        PostToCallbackUrl (render_or_keep callback_url) (render_params p)
          app_data
    | EmailNotification from to p => EmailNotification from to (render_params p)
    end in
  let group :=
    match coalescence_group ce with
    | Some g => Some (render_or_keep g)
    | None => None
    end in
  mkCoalescenceEvent (coalescence ce) group event'.
End Rendering.

(** [Rule::check_value] *)
Definition rule_check_value (render : Render) (rhai_eval : RhaiEval)
    (self : Rule) (info : Value) : RuleResult :=
  let condition_result := check_value rhai_eval (conditions self) info in
  let events := map (render_event render info) (events self) in
  RuleResult.mk condition_result events.

(* ===================================================================== *)
(** ** Engine (core.rs, lines 225-386) *)
(* ===================================================================== *)

Inductive Error :=
| ReqwestError (msg : string)
| ReqwestInvalidHeaderError (msg : string)
| SerializeJsonError (msg : string)
| SendgridError (msg : string).

Inductive result (A : Type) :=
| Ok (a : A)
| Err (e : Error).
Arguments Ok {A} a.
Arguments Err {A} e.

(** The coalescence cache: group key to (insertion instant, TTL in seconds). *)
Abbreviation Coalescences := (gmap string (N * N)).

Record Engine := mkEngine {
  rules : list Rule;
  coalescences : Coalescences
}.

(** [start.elapsed().as_secs()] at the instant [now] (nanoseconds;
    [Instant] subtraction saturates at zero). *)
Definition elapsed_secs (start now : N) : N := ((now - start) / 1000000000)%N.

(** [self.coalescences.retain(|_k, (start, expiration)|
        start.elapsed().as_secs() < *expiration)] *)
Definition evict (now : N) (cache : Coalescences) : Coalescences :=
  filter (fun kv : string * (N * N) =>
            (elapsed_secs kv.2.1 now < kv.2.2)%N) cache.

(** The closure given to [rule_result.events.retain]: whether the event is
    kept, and the cache after the call. *)
Definition retain_event (now : N) (cache : Coalescences) (ev : CoalescenceEvent)
  : bool * Coalescences :=
  match coalescence_group ev, coalescence ev with
  | Some g, Some c =>
      match cache !! g with
      | Some _ => (false, cache)
      | None => (true, <[g := (now, c)]> cache)
      end
  | _, _ => (true, cache)
  end.

(** [events.retain(..)], threading the cache through the events in order. *)
Fixpoint retain_events (now : N) (cache : Coalescences)
    (evs : list CoalescenceEvent) : list CoalescenceEvent * Coalescences :=
  match evs with
  | [] => ([], cache)
  | ev :: evs' =>
      let (keep, cache1) := retain_event now cache ev in
      let (kept, cache2) := retain_events now cache1 evs' in
      (if keep then ev :: kept else kept, cache2)
  end.

(** [for rule_result in rule_results.iter_mut() { .. }] *)
Fixpoint coalesce_results (now : N) (cache : Coalescences)
    (rrs : list RuleResult) : list RuleResult * Coalescences :=
  match rrs with
  | [] => ([], cache)
  | rr :: rrs' =>
      let (evs, cache1) := retain_events now cache (RuleResult.events rr) in
      let (rest, cache2) := coalesce_results now cache1 rrs' in
      (RuleResult.mk (RuleResult.condition_result rr) evs :: rest, cache2)
  end.

(** The [filter_map] building the dispatch requests of one event. *)
Definition request_of (ce : CoalescenceEvent) : option Event :=
  match event ce with
  | PostToCallbackUrl _ _ _ => Some (event ce)
  | EmailNotification _ (_ :: _) _ => Some (event ce)
  | _ => None
  end.

Definition requests (rule_results : list RuleResult) : list Event :=
  concat (map (fun rr => filter_map request_of (RuleResult.events rr))
                rule_results).

Section Run.
(** The facts' type and [serde_json::value::to_value] on it ([Err] with
    serde_json's message). *)
Variable T : Type.
Variable to_value : T -> sum Value string.
Variable render : Render.
Variable rhai_eval : RhaiEval.
(** Outcome of sending one request (HTTP callback or email). *)
Variable send : Event -> Value -> result unit.

(** [Engine::run] at the instant [now]: the engine after the call, the
    returned value, and the outcomes collected by [join_all] with the
    request each belongs to.  The calls to [Instant::now()] (in [elapsed]
    and at insertion) within one run all read [now]. *)
Definition run_full (self : Engine) (now : N) (facts : T)
  : Engine * result (list RuleResult) * list (Event * result unit) :=
  match to_value facts with
  | inr e => (self, Err (SerializeJsonError e), [])
  | inl facts =>
      let rule_results :=
        List.filter
          (fun rr => Status_eqb (status (RuleResult.condition_result rr)) Met)
          (map (fun rule => rule_check_value render rhai_eval rule facts)
             (rules self)) in
      let cache := evict now (coalescences self) in
      let (rule_results, cache) := coalesce_results now cache rule_results in
      let outcomes :=
        map (fun ev => (ev, send ev facts)) (requests rule_results) in
      (mkEngine (rules self) cache, Ok rule_results, outcomes)
  end.

(** [Engine::run]: the outcomes of the dispatches are dropped
    ([let _ = join_all(requests).await]). *)
Definition run (self : Engine) (now : N) (facts : T)
  : Engine * result (list RuleResult) :=
  let '(self', res, _) := run_full self now facts in (self', res).
End Run.

(* ===================================================================== *)
(** ** Engine set-up (core.rs, lines 236-267) *)
(* ===================================================================== *)

(** [Engine::new]: no rules and an empty cache (the HTTP client, the mail
    sender and the rhai engine are not modelled). *)
Definition new : Engine := mkEngine [] ∅.

(** [Engine::add_rule]: [self.rules.push(rule)] *)
Definition add_rule (self : Engine) (rule : Rule) : Engine :=
  mkEngine (rules self ++ [rule]) (coalescences self).

(** [Engine::add_rules]: [self.rules.extend(rules)] *)
Definition add_rules (self : Engine) (rules' : list Rule) : Engine :=
  mkEngine (rules self ++ rules') (coalescences self).

(** [Engine::load_rules]: [self.rules = rules] *)
Definition load_rules (self : Engine) (rules' : list Rule) : Engine :=
  mkEngine rules' (coalescences self).

(** [Engine::clear]: [self.rules.clear()] *)
Definition clear (self : Engine) : Engine := mkEngine [] (coalescences self).

(* ===================================================================== *)
(** ** Auxiliary definitions for the statements *)
(* ===================================================================== *)

(** The value shape each operator family expects: a string, an [i64], an
    [f64] or a [bool] for the scalar operators, an array for the
    collection operators. *)
Definition coercible (c : Constraint) (v : Value) : bool :=
  match c with
  | StringEquals _ | StringNotEquals _ | StringIn _ | StringNotIn _ =>
      bool_decide (is_Some (as_str v))
  | StringContains _ | StringContainsAll _ | StringContainsAny _
  | StringDoesNotContain _ | StringDoesNotContainAny _
  | IntContains _ | IntContainsAll _ | IntContainsAny _
  | IntDoesNotContain _ | IntDoesNotContainAny _
  | FloatContains _ | FloatDoesNotContain _ =>
      bool_decide (is_Some (as_array v))
  | IntEquals _ | IntNotEquals _ | IntIn _ | IntNotIn _ | IntInRange _ _
  | IntNotInRange _ _ | IntLessThan _ | IntLessThanInclusive _
  | IntGreaterThan _ | IntGreaterThanInclusive _ =>
      bool_decide (is_Some (as_i64 v))
  | FloatEquals _ | FloatNotEquals _ | FloatIn _ | FloatNotIn _
  | FloatInRange _ _ | FloatNotInRange _ _ | FloatLessThan _
  | FloatLessThanInclusive _ | FloatGreaterThan _
  | FloatGreaterThanInclusive _ =>
      bool_decide (is_Some (as_f64 v))
  | BoolEquals _ => bool_decide (is_Some (as_bool v))
  end.


(** The templates [Rule::check_value] renders for an event, its message,
    its callback URL and its coalescence group, all fail to render. *)
Definition templates_fail (render : Render) (info : Value)
    (ce : CoalescenceEvent) : Prop :=
  match coalescence_group ce with
  | Some g => render g info = None
  | None => True
  end /\
  match event ce with
  | Message p => render (message p) info = None
  | PostToCallbackUrl u p _ => render u info = None /\ render (message p) info = None
  | EmailNotification _ _ p => render (message p) info = None
  end.

(** Number of statuses that are exactly [Met]. *)
Definition count_met (l : list Status) : nat :=
  length (List.filter (fun s => Status_eqb s Met) l).

(** The operator whose result is the NOT of the given one's on every value
    of the expected shape, when the code has one. *)
Definition negated (c : Constraint) : option Constraint :=
  match c with
  | StringEquals s => Some (StringNotEquals s)
  | StringContains s => Some (StringDoesNotContain s)
  | StringContainsAny s => Some (StringDoesNotContainAny s)
  | StringIn ss => Some (StringNotIn ss)
  | IntEquals num => Some (IntNotEquals num)
  | IntContains num => Some (IntDoesNotContain num)
  | IntContainsAny nums => Some (IntDoesNotContainAny nums)
  | IntIn nums => Some (IntNotIn nums)
  | IntInRange start end_ => Some (IntNotInRange start end_)
  | IntLessThan num => Some (IntGreaterThanInclusive num)
  | IntGreaterThan num => Some (IntLessThanInclusive num)
  | FloatEquals num => Some (FloatNotEquals num)
  | FloatContains num => Some (FloatDoesNotContain num)
  | FloatIn nums => Some (FloatNotIn nums)
  | FloatInRange start end_ => Some (FloatNotInRange start end_)
  | _ => None
  end.

(** Every [Condition::Condition] leaf of the tree names a field whose
    pointer resolves in [info]. *)
Fixpoint fields_resolve (info : Value) (c : Condition.t) : bool :=
  match c with
  | Condition.And cs | Condition.Or cs | Condition.AtLeast _ cs =>
      forallb (fields_resolve info) cs
  | Condition.Condition field _ =>
      match pointer info (field_path field) with Some _ => true | None => false end
  | Condition.Eval _ => true
  end.

(** The group of an event that takes part in coalescence (it has both a
    group and a TTL). *)
Definition keyed_group (ce : CoalescenceEvent) : option string :=
  match coalescence_group ce, coalescence ce with
  | Some g, Some _ => Some g
  | _, _ => None
  end.

(** The groups of the coalescing events of a list of rule results, in
    order. *)
Definition keyed_groups (rrs : list RuleResult) : list string :=
  List.concat (map (fun rr => filter_map keyed_group (RuleResult.events rr)) rrs).

(** A field name with neither ["/"] nor ["~"]: one pointer token, read as
    written. *)
Fixpoint plain_key (k : string) : bool :=
  match k with
  | EmptyString => true
  | String c k' =>
      if ascii_dec c "/" then false
      else if ascii_dec c "~" then false
      else plain_key k'
  end.

(* ===================================================================== *)
(** ** Lemmas *)
(* ===================================================================== *)

Lemma met_cases (b : bool) : met b = Met \/ met b = NotMet.
Proof. destruct b; [left|right]; reflexivity. Qed.

Lemma if_some_cases {A} (o : option A) (body : A -> Status) :
  (forall x, body x = Met \/ body x = NotMet) ->
  if_some o body = Met \/ if_some o body = NotMet.
Proof. intros H. destruct o; simpl; auto. Qed.




Ltac status_cases :=
  apply if_some_cases; intros ?x; try apply met_cases;
  repeat match goal with |- context [if ?b then _ else _] => destruct b end;
  auto.

Lemma check_constraint_cases (c : Constraint) (v : Value) :
  check_constraint c v = Met \/ check_constraint c v = NotMet.
Proof. destruct c; simpl; status_cases. Qed.






Lemma fold_count_met (l : list ConditionResult) (k : nat) :
  fold_left (fun n r => if Status_eqb (status r) Met then S n else n) l k
  = (k + count_met (map status l))%nat.
Proof.
  revert k. induction l as [|r l IH]; intros k; simpl.
  - unfold count_met. simpl. lia.
  - rewrite IH. unfold count_met. simpl.
    destruct (Status_eqb (status r) Met); simpl; lia.
Qed.

(** Induction on condition trees, with the hypothesis for every child. *)
Section ConditionInd.
Variable P : Condition.t -> Prop.
Hypothesis HAnd : forall cs, Forall P cs -> P (Condition.And cs).
Hypothesis HOr : forall cs, Forall P cs -> P (Condition.Or cs).
Hypothesis HAtLeast :
  forall n cs, Forall P cs -> P (Condition.AtLeast n cs).
Hypothesis HCondition : forall f c, P (Condition.Condition f c).
Hypothesis HEval : forall e, P (Condition.Eval e).

Fixpoint condition_ind' (c : Condition.t) : P c :=
  match c with
  | Condition.And cs =>
      HAnd cs ((fix all (l : list Condition.t) : Forall P l :=
                  match l with
                  | [] => List.Forall_nil P
                  | x :: l' => @List.Forall_cons _ P x l' (condition_ind' x) (all l')
                  end) cs)
  | Condition.Or cs =>
      HOr cs ((fix all (l : list Condition.t) : Forall P l :=
                 match l with
                 | [] => List.Forall_nil P
                 | x :: l' => @List.Forall_cons _ P x l' (condition_ind' x) (all l')
                 end) cs)
  | Condition.AtLeast n cs =>
      HAtLeast n cs ((fix all (l : list Condition.t) : Forall P l :=
                        match l with
                        | [] => List.Forall_nil P
                        | x :: l' =>
                            @List.Forall_cons _ P x l' (condition_ind' x) (all l')
                        end) cs)
  | Condition.Condition f c => HCondition f c
  | Condition.Eval e => HEval e
  end.
End ConditionInd.

(** Pointwise relation between two lists of the same length. *)
Fixpoint all2 {A B} (R : A -> B -> Prop) (l1 : list A) (l2 : list B) : Prop :=
  match l1, l2 with
  | [], [] => True
  | x :: l1', y :: l2' => R x y /\ all2 R l1' l2'
  | _, _ => False
  end.

(** A result tree has the shape of a condition tree: one child result per
    child condition at every inner node, none at the leaves. *)
Fixpoint mirrors (c : Condition.t) (r : ConditionResult) : Prop :=
  match c with
  | Condition.And cs | Condition.Or cs | Condition.AtLeast _ cs =>
      all2 mirrors cs (children r)
  | Condition.Condition _ _ | Condition.Eval _ => children r = []
  end.

Lemma all2_map {A B} (R : A -> B -> Prop) (f : A -> B) (l : list A) :
  Forall (fun x => R x (f x)) l -> all2 R l (map f l).
Proof. induction 1; simpl; auto. Qed.

Lemma fold_left_map_status (f : Status -> Status -> Status)
    (l : list ConditionResult) (a : Status) :
  fold_left (fun st r => f st (status r)) l a
  = fold_left f (map status l) a.
Proof. revert a; induction l; simpl; auto. Qed.

Lemma count_met_le (l : list Status) : (count_met l <= length l)%nat.
Proof.
  unfold count_met. induction l as [|s l IH]; simpl; [lia|].
  destruct (Status_eqb s Met); simpl; lia.
Qed.

Lemma map_map_status (rhai_eval : RhaiEval) (info : Value)
    (cs : list Condition.t) :
  map status (map (fun c => check_value rhai_eval c info) cs)
  = map (fun c => status (check_value rhai_eval c info)) cs.
Proof. rewrite map_map. reflexivity. Qed.

(* ===================================================================== *)
(** ** Claims *)
(* ===================================================================== *)

(** C1: AND and OR on [Status] are commutative and associative, NOT is an
    involution, and Met AND Met = Met, NotMet AND Unknown = NotMet,
    Met AND Unknown = Unknown, NotMet OR Unknown = Unknown,
    Met OR NotMet = Met. *)
Theorem status_algebra_laws :
  (forall a b, a &&& b = b &&& a) /\
  (forall a b, a ||| b = b ||| a) /\
  (forall a, status_not (status_not a) = a) /\
  (forall a b c, a &&& (b &&& c) = (a &&& b) &&& c) /\
  (forall a b c, a ||| (b ||| c) = (a ||| b) ||| c) /\
  Met &&& Met = Met /\
  NotMet &&& Unknown = NotMet /\
  Met &&& Unknown = Unknown /\
  NotMet ||| Unknown = Unknown /\
  Met ||| NotMet = Met.
Proof.
  repeat split; intros;
    repeat match goal with s : Status |- _ => destruct s; clear s end;
    reflexivity.
Qed.

(** C3: a leaf's field is turned into a pointer starting with ["/"] (a
    ["/"] is prefixed when missing); when that pointer resolves to no
    value of the facts, the leaf's status is [Unknown] whatever its
    operator. *)
Theorem leaf_missing_field_unknown (rhai_eval : RhaiEval) (field : string)
    (info : Value) (Hnone : pointer info (field_path field) = None) :
  String.prefix "/" (field_path field) = true /\
  (field_path field = field \/ field_path field = String.append "/" field) /\
  forall constraint : Constraint,
    status (check_value rhai_eval (Condition.Condition field constraint) info)
    = Unknown.
Proof.
  split; [|split].
  - unfold field_path. destruct (String.prefix "/" field) eqn:E;
      [exact E | destruct field; reflexivity].
  - unfold field_path. destruct (String.prefix "/" field); auto.
  - intros constraint. simpl. rewrite Hnone. reflexivity.
Qed.



(** C5: an [AtLeast] node is [Met] exactly when at least
    [should_minimum_meet] of its children are [Met], and [NotMet]
    otherwise (never [Unknown]); [AtLeast(0, [])] is [Met], and a minimum
    above the number of children gives [NotMet]. *)
Theorem at_least_counts_met (rhai_eval : RhaiEval) (n : nat)
    (cs : list Condition.t) (info : Value) :
  let r := check_value rhai_eval (Condition.AtLeast n cs) info in
  let k := count_met (map (fun c => status (check_value rhai_eval c info)) cs) in
  (status r = Met <-> (n <= k)%nat) /\
  (status r = NotMet <-> (k < n)%nat) /\
  status r <> Unknown /\
  status (check_value rhai_eval (Condition.AtLeast 0 []) info) = Met /\
  ((length cs < n)%nat -> status r = NotMet).
Proof.
  cbn zeta. simpl. rewrite fold_count_met, map_map_status. simpl.
  pose proof (count_met_le (map (fun c => status (check_value rhai_eval c info)) cs))
    as Hle.
  rewrite length_map in Hle.
  set (k := count_met _) in *.
  destruct (Nat.leb n k) eqn:E.
  - apply Nat.leb_le in E. repeat split; try discriminate; intros; lia.
  - apply Nat.leb_gt in E. repeat split; try discriminate; intros; lia.
Qed.

(** C9: evaluation is eager: every child of every [And], [Or] and
    [AtLeast] node is evaluated, so the result tree has the shape of the
    condition tree; the status of [And] (resp. [Or]) is the fold of AND
    from [Met] (resp. OR from [NotMet]) over the children's statuses. *)
Theorem condition_eval_eager (rhai_eval : RhaiEval) (info : Value) :
  (forall c, mirrors c (check_value rhai_eval c info)) /\
  (forall cs,
     children (check_value rhai_eval (Condition.And cs) info)
     = map (fun c => check_value rhai_eval c info) cs /\
     status (check_value rhai_eval (Condition.And cs) info)
     = fold_left bitand (map (fun c => status (check_value rhai_eval c info)) cs)
         Met) /\
  (forall cs,
     children (check_value rhai_eval (Condition.Or cs) info)
     = map (fun c => check_value rhai_eval c info) cs /\
     status (check_value rhai_eval (Condition.Or cs) info)
     = fold_left bitor (map (fun c => status (check_value rhai_eval c info)) cs)
         NotMet) /\
  (forall n cs,
     children (check_value rhai_eval (Condition.AtLeast n cs) info)
     = map (fun c => check_value rhai_eval c info) cs).
Proof.
  split; [|split; [|split]].
  - apply condition_ind'; intros; simpl; auto; apply all2_map; assumption.
  - intros cs. simpl. split; [reflexivity|].
    rewrite fold_left_map_status, map_map_status. reflexivity.
  - intros cs. simpl. split; [reflexivity|].
    rewrite fold_left_map_status, map_map_status. reflexivity.
  - intros n cs. reflexivity.
Qed.

(** The largest double below 1.0, i.e. 1 - 2^-53. *)
Definition one_below : float := 0x1.fffffffffffffp-1%float.

(** C7 (as stated, refuted on core.rs): [FloatEquals c] is not [Met]
    exactly when [|v - c| < f64::EPSILON]: for c = 1.0 and
    v = 1 - 2^-53, [|v - c| < EPSILON] but core.rs compares [v == c]. *)
Lemma float_equals_core_not_tolerant :
  ~ (forall (c x : float),
       check_constraint (FloatEquals c) (Value.Number (Float x)) = Met <->
       float_close x c = true).
Proof.
  intros H. specialize (H 1%float one_below).
  assert (Hc : float_close one_below 1%float = true) by reflexivity.
  apply H in Hc. vm_compute in Hc. discriminate.
Qed.

(** C7 (amended): in constraint.rs, [FloatEquals c] is [Met] exactly when
    [|v - c| < EPSILON] and [FloatNotEquals c] exactly when
    [|v - c| > EPSILON], so at c = 1.0, v = 1.0 + EPSILON both are
    [NotMet]; core.rs compares exactly ([v == c], [v != c]). *)
Theorem float_equality_tolerance (c x : float) (v : Value)
    (Hv : as_f64 v = Some x) :
  (ConstraintRs.check_value (FloatEquals c) v = Met <-> float_close x c = true) /\
  (ConstraintRs.check_value (FloatNotEquals c) v = Met <->
   float_apart x c = true) /\
  (check_constraint (FloatEquals c) v = Met <-> PrimFloat.eqb x c = true) /\
  (check_constraint (FloatNotEquals c) v = Met <-> PrimFloat.eqb x c = false) /\
  (exists c' x' : float,
     PrimFloat.abs (PrimFloat.sub x' c') = f64_EPSILON /\
     ConstraintRs.check_value (FloatEquals c') (Value.Number (Float x')) = NotMet /\
     ConstraintRs.check_value (FloatNotEquals c') (Value.Number (Float x'))
     = NotMet).
Proof.
  simpl. rewrite Hv. simpl. unfold met.
  split; [|split; [|split; [|split]]].
  - destruct (float_close x c); split; congruence.
  - destruct (float_apart x c); split; congruence.
  - destruct (PrimFloat.eqb x c); split; congruence.
  - destruct (PrimFloat.eqb x c); simpl; split; congruence.
  - exists 1%float, (1 + f64_EPSILON)%float. vm_compute. auto.
Qed.

(** Lookups in the cache after eviction. *)
Lemma lookup_evict (now : N) (cache : Coalescences) (k : string) :
  evict now cache !! k =
  match cache !! k with
  | Some (start, ttl) =>
      if decide (elapsed_secs start now < ttl)%N then Some (start, ttl) else None
  | None => None
  end.
Proof.
  unfold evict. rewrite map_lookup_filter.
  destruct (cache !! k) as [[start ttl]|]; simpl; [|reflexivity].
  case_decide; simpl; case_guard; simpl; tauto.
Qed.

Lemma retain_event_partial (now : N) (cache : Coalescences)
    (ev : CoalescenceEvent) :
  coalescence_group ev = None \/ coalescence ev = None ->
  retain_event now cache ev = (true, cache).
Proof.
  unfold retain_event. intros [H|H]; rewrite H; [reflexivity|].
  destruct (coalescence_group ev); reflexivity.
Qed.

Lemma retain_events_keeps (now : N) (ev : CoalescenceEvent)
    (l1 l2 : list CoalescenceEvent) :
  coalescence_group ev = None \/ coalescence ev = None ->
  forall cache, In ev (fst (retain_events now cache (l1 ++ ev :: l2))).
Proof.
  intros Hev. induction l1 as [|e l1 IH]; intros cache; simpl.
  - rewrite retain_event_partial by exact Hev.
    destruct (retain_events now cache l2). simpl. left. reflexivity.
  - destruct (retain_event now cache e) as [keep cache1].
    specialize (IH cache1).
    destruct (retain_events now cache1 (l1 ++ ev :: l2)) as [kept cache2].
    simpl in *. destruct keep; simpl; auto.
Qed.

Lemma retain_events_cache (now : N) (evs : list CoalescenceEvent) :
  forall (cache : Coalescences) (k : string),
    snd (retain_events now cache evs) !! k <> cache !! k ->
    exists ev, In ev evs /\ coalescence_group ev = Some k /\
               is_Some (coalescence ev).
Proof.
  induction evs as [|e evs IH]; intros cache k Hk; simpl in *.
  - congruence.
  - destruct (retain_event now cache e) as [keep cache1] eqn:Hr.
    destruct (retain_events now cache1 evs) as [kept cache2] eqn:Hrs.
    simpl in Hk.
    destruct (decide (cache1 !! k = cache !! k)) as [Heq|Hne].
    + rewrite <- Heq in Hk.
      destruct (IH cache1 k) as (ev & Hin & Hg & Ht); [rewrite Hrs; exact Hk|].
      exists ev. auto.
    + exists e. split; [left; reflexivity|].
      unfold retain_event in Hr.
      destruct (coalescence_group e) as [g|]; [|injection Hr; congruence].
      destruct (coalescence e) as [c|]; [|injection Hr; congruence].
      destruct (cache !! g); injection Hr; intros; subst; [congruence|].
      destruct (decide (g = k)) as [->|Hgk]; [split; eauto|].
      rewrite lookup_insert_ne in Hne by exact Hgk. congruence.
Qed.

Lemma retain_events_sublist (now : N) (evs : list CoalescenceEvent) :
  forall cache, fst (retain_events now cache evs) `sublist_of` evs.
Proof.
  induction evs as [|e evs IH]; intros cache; simpl; [reflexivity|].
  destruct (retain_event now cache e) as [keep cache1].
  specialize (IH cache1).
  destruct (retain_events now cache1 evs) as [kept cache2]. simpl in *.
  destruct keep; [apply sublist_skip | apply sublist_cons]; exact IH.
Qed.

(** What [run] keeps of the rules, rule by rule. *)
Definition kept_result (render : Render) (rhai_eval : RhaiEval) (v : Value)
    (rr : RuleResult) (r : Rule) : Prop :=
  RuleResult.condition_result rr = check_value rhai_eval (conditions r) v /\
  RuleResult.events rr `sublist_of` map (render_event render v) (events r).

Definition met_rules (rhai_eval : RhaiEval) (v : Value) (rules : list Rule)
  : list Rule :=
  List.filter (fun r => Status_eqb (status (check_value rhai_eval (conditions r) v)) Met)
    rules.

Lemma coalesce_met_rules (render : Render) (rhai_eval : RhaiEval) (v : Value)
    (now : N) (rules : list Rule) :
  forall cache,
    all2 (kept_result render rhai_eval v)
      (fst (coalesce_results now cache
              (List.filter
                 (fun rr => Status_eqb (status (RuleResult.condition_result rr)) Met)
                 (map (fun rule => rule_check_value render rhai_eval rule v) rules))))
      (met_rules rhai_eval v rules).
Proof.
  unfold met_rules.
  induction rules as [|r rules IH]; intros cache; simpl; [exact I|].
  destruct (Status_eqb (status (check_value rhai_eval (conditions r) v)) Met);
    [|apply IH].
  simpl.
  destruct (retain_events now cache (map (render_event render v) (events r)))
    as [evs cache1] eqn:Hr.
  specialize (IH cache1).
  destruct (coalesce_results now cache1 _) as [rest cache2]. simpl in *.
  split; [|exact IH].
  split; [reflexivity|].
  pose proof (retain_events_sublist now (map (render_event render v) (events r))
                cache) as Hs.
  rewrite Hr in Hs. exact Hs.
Qed.

Lemma run_full_ok (T : Type) (to_value : T -> sum Value string)
    (render : Render) (rhai_eval : RhaiEval)
    (send : Event -> Value -> result unit) (self : Engine) (now : N)
    (facts : T) (v : Value) :
  to_value facts = inl v ->
  exists rrs cache,
    coalesce_results now (evict now (coalescences self))
      (List.filter
         (fun rr => Status_eqb (status (RuleResult.condition_result rr)) Met)
         (map (fun rule => rule_check_value render rhai_eval rule v) (rules self)))
    = (rrs, cache) /\
    run_full T to_value render rhai_eval send self now facts
    = (mkEngine (rules self) cache, Ok rrs,
       map (fun ev => (ev, send ev v)) (requests rrs)).
Proof.
  intros Hv. unfold run_full. rewrite Hv.
  destruct (coalesce_results _ _ _) as [rrs cache] eqn:E.
  exists rrs, cache. split; reflexivity.
Qed.

(** C10: an event with a coalescence group but no TTL, or a TTL but no
    group, is kept by the coalescence filter and leaves the cache as it
    is; the cache only changes at the group key of an event that has both
    a group and a TTL. *)
Theorem partial_coalescence_never_suppressed (now : N) (cache : Coalescences)
    (ev : CoalescenceEvent) (before after : list CoalescenceEvent)
    (Hpartial : coalescence_group ev = None \/ coalescence ev = None) :
  retain_event now cache ev = (true, cache) /\
  In ev (fst (retain_events now cache (before ++ ev :: after))) /\
  forall (evs : list CoalescenceEvent) (k : string),
    snd (retain_events now cache evs) !! k <> cache !! k ->
    exists ev', In ev' evs /\ coalescence_group ev' = Some k /\
                is_Some (coalescence ev').
Proof.
  split; [apply retain_event_partial, Hpartial|].
  split; [apply retain_events_keeps, Hpartial|].
  intros evs k. apply retain_events_cache.
Qed.

(** C2: [run] fails only when the facts cannot be converted to a JSON
    value, with that error; otherwise it returns one result per rule whose
    root status is [Met], in the order of the rules, carrying that rule's
    condition result and (a sublist of) its rendered events; the outcome
    of the dispatches does not change what [run] returns. *)
Theorem run_errs_only_on_serialization (T : Type)
    (to_value : T -> sum Value string) (render : Render)
    (rhai_eval : RhaiEval) (send : Event -> Value -> result unit)
    (self : Engine) (now : N) (facts : T) :
  (match to_value facts with
   | inr e =>
       snd (run T to_value render rhai_eval send self now facts)
       = Err (SerializeJsonError e)
   | inl v =>
       exists rrs,
         snd (run T to_value render rhai_eval send self now facts) = Ok rrs /\
         all2 (kept_result render rhai_eval v) rrs
           (met_rules rhai_eval v (rules self))
   end) /\
  (forall send' : Event -> Value -> result unit,
     run T to_value render rhai_eval send' self now facts
     = run T to_value render rhai_eval send self now facts).
Proof.
  split.
  - destruct (to_value facts) as [v|e] eqn:Hv.
    + destruct (run_full_ok T to_value render rhai_eval send self now facts v Hv)
        as (rrs & cache & Hc & Hr).
      exists rrs. unfold run. rewrite Hr. split; [reflexivity|].
      pose proof (coalesce_met_rules render rhai_eval v now (rules self)
                    (evict now (coalescences self))) as H.
      rewrite Hc in H. exact H.
    + unfold run, run_full. rewrite Hv. reflexivity.
  - intros send'. unfold run, run_full.
    destruct (to_value facts); [|reflexivity].
    destruct (coalesce_results _ _ _). reflexivity.
Qed.

(** [t'] is [t] rendered against [info], or [t] itself, verbatim, when
    rendering fails. *)
Definition rendered (render : Render) (info : Value) (t t' : string) : Prop :=
  (render t info = None /\ t' = t) \/
  (exists s, render t info = Some s /\ t' = s).

Definition params_rendered (render : Render) (info : Value)
    (p p' : EventParams) : Prop :=
  ty p' = ty p /\ title p' = title p /\
  rendered render info (message p) (message p').

(** [ce'] is [ce] with its message, callback URL and coalescence group
    rendered once against [info]. *)
Definition event_rendered (render : Render) (info : Value)
    (ce ce' : CoalescenceEvent) : Prop :=
  coalescence ce' = coalescence ce /\
  match coalescence_group ce, coalescence_group ce' with
  | Some g, Some g' => rendered render info g g'
  | None, None => True
  | _, _ => False
  end /\
  match event ce, event ce' with
  | Message p, Message p' => params_rendered render info p p'
  | PostToCallbackUrl u p a, PostToCallbackUrl u' p' a' =>
      rendered render info u u' /\ params_rendered render info p p' /\ a' = a
  | EmailNotification f t p, EmailNotification f' t' p' =>
      f' = f /\ t' = t /\ params_rendered render info p p'
  | _, _ => False
  end.

Lemma render_or_keep_rendered (render : Render) (info : Value) (t : string) :
  rendered render info t (render_or_keep render info t).
Proof.
  unfold rendered, render_or_keep.
  destruct (render t info) as [s|]; [right; eauto | left; auto].
Qed.

Lemma render_event_rendered (render : Render) (info : Value)
    (ce : CoalescenceEvent) :
  event_rendered render info ce (render_event render info ce).
Proof.
  unfold event_rendered, render_event, params_rendered. simpl.
  split; [reflexivity|split].
  - destruct (coalescence_group ce); simpl; auto using render_or_keep_rendered.
  - destruct (event ce); simpl;
      repeat split; auto using render_or_keep_rendered.
Qed.

(** C8: [Rule::check_value] renders each event once against the facts:
    the message, the callback URL and the coalescence group take the
    rendered text, or keep their template verbatim when rendering fails;
    the rule's condition result is the evaluation of its condition tree;
    and the events [run] returns for a rule are taken, after the
    coalescence filter, from these rendered events. *)
Theorem rule_events_rendered_once (render : Render) (rhai_eval : RhaiEval)
    (self : Rule) (info : Value) :
  RuleResult.condition_result (rule_check_value render rhai_eval self info)
  = check_value rhai_eval (conditions self) info /\
  all2 (event_rendered render info) (events self)
    (RuleResult.events (rule_check_value render rhai_eval self info)) /\
  (forall (T : Type) (to_value : T -> sum Value string)
          (send : Event -> Value -> result unit) (eng : Engine) (now : N)
          (facts : T) (v : Value),
     to_value facts = inl v ->
     exists rrs,
       snd (run T to_value render rhai_eval send eng now facts) = Ok rrs /\
       all2 (fun rr r =>
               RuleResult.events rr `sublist_of`
               RuleResult.events (rule_check_value render rhai_eval r v))
         rrs (met_rules rhai_eval v (rules eng))).
Proof.
  split; [reflexivity|split].
  - simpl. induction (events self) as [|ce evs IH]; simpl; [exact I|].
    split; [apply render_event_rendered | exact IH].
  - intros T to_value send eng now facts v Hv.
    destruct (run_full_ok T to_value render rhai_eval send eng now facts v Hv)
      as (rrs & cache & Hc & Hr).
    exists rrs. unfold run. rewrite Hr. split; [reflexivity|].
    pose proof (coalesce_met_rules render rhai_eval v now (rules eng)
                  (evict now (coalescences eng))) as H.
    rewrite Hc in H. clear Hc Hr.
    revert H. generalize (met_rules rhai_eval v (rules eng)).
    induction rrs as [|rr rrs IH]; intros l H; destruct l as [|r l];
      simpl in *; try contradiction; auto.
    destruct H as [[_ Hs] H]. split; [exact Hs | apply IH, H].
Qed.

Lemma run_full_single_rule (T : Type) (to_value : T -> sum Value string)
    (render : Render) (rhai_eval : RhaiEval)
    (send : Event -> Value -> result unit) (r : Rule) (e0 : CoalescenceEvent)
    (facts : T) (v : Value) (cache : Coalescences) (now : N) :
  to_value facts = inl v ->
  status (check_value rhai_eval (conditions r) v) = Met ->
  events r = [e0] ->
  let ev := render_event render v e0 in
  let cr := check_value rhai_eval (conditions r) v in
  let step := retain_event now (evict now cache) ev in
  let kept := [RuleResult.mk cr (if step.1 then [ev] else [])] in
  run_full T to_value render rhai_eval send (mkEngine [r] cache) now facts
  = (mkEngine [r] step.2, Ok kept, map (fun e => (e, send e v)) (requests kept)).
Proof.
  intros Hv Hmet Hev. cbn zeta. unfold run_full. rewrite Hv. simpl.
  rewrite Hmet. unfold rule_check_value. rewrite Hev. simpl.
  destruct (retain_event now (evict now cache) (render_event render v e0))
    as [[] c]; reflexivity.
Qed.

Lemma elapsed_below (start now ttl : N) :
  (now - start < ttl * 1000000000)%N -> (elapsed_secs start now < ttl)%N.
Proof.
  intros H. unfold elapsed_secs. apply N.Div0.div_lt_upper_bound; lia.
Qed.

Lemma elapsed_reached (start now ttl : N) :
  (ttl * 1000000000 <= now - start)%N -> ~ (elapsed_secs start now < ttl)%N.
Proof.
  intros H. unfold elapsed_secs.
  assert (ttl <= (now - start) / 1000000000)%N
    by (apply N.div_le_lower_bound; lia).
  lia.
Qed.

(** C6: an event whose rendered coalescence group is ["g"] and whose TTL
    is 5 seconds fires in a first run at [t1] (no live entry for ["g"]),
    which records ["g"] with [(t1, 5)]; a later run at [t2], less than
    5 s after [t1], drops it (absent from the returned events, nothing
    dispatched) and leaves the entry as it is; a run at [t3], 5 s or more
    after [t1], evicts the entry, fires the event again and records
    [(t3, 5)]. *)
Theorem coalescence_window (T : Type) (to_value : T -> sum Value string)
    (render : Render) (rhai_eval : RhaiEval)
    (send : Event -> Value -> result unit) (r : Rule) (e0 : CoalescenceEvent)
    (facts : T) (v : Value) (cache0 : Coalescences) (t1 t2 t3 : N)
    (Hv : to_value facts = inl v)
    (Hmet : status (check_value rhai_eval (conditions r) v) = Met)
    (Hev : events r = [e0])
    (Hgroup : coalescence_group (render_event render v e0) = Some "g"%string)
    (Httl : coalescence e0 = Some 5%N)
    (Hfree : evict t1 cache0 !! "g"%string = None)
    (Hwithin : (t2 - t1 < 5 * 1000000000)%N)
    (Helapsed : (5 * 1000000000 <= t3 - t1)%N) :
  let ev := render_event render v e0 in
  let cr := check_value rhai_eval (conditions r) v in
  let run1 := run_full T to_value render rhai_eval send (mkEngine [r] cache0)
                t1 facts in
  let run2 := run_full T to_value render rhai_eval send run1.1.1 t2 facts in
  let run3 := run_full T to_value render rhai_eval send run2.1.1 t3 facts in
  run1.1.2 = Ok [RuleResult.mk cr [ev]] /\
  coalescences run1.1.1 !! "g"%string = Some (t1, 5%N) /\
  run2.1.2 = Ok [RuleResult.mk cr []] /\
  run2.2 = [] /\
  coalescences run2.1.1 !! "g"%string = Some (t1, 5%N) /\
  run3.1.2 = Ok [RuleResult.mk cr [ev]] /\
  run3.2 = map (fun e => (e, send e v)) (requests [RuleResult.mk cr [ev]]) /\
  coalescences run3.1.1 !! "g"%string = Some (t3, 5%N).
Proof.
  cbn zeta.
  set (ev := render_event render v e0) in *.
  assert (Hevttl : coalescence ev = Some 5%N) by exact Httl.
  (* first run *)
  set (c1 := <["g"%string := (t1, 5%N)]> (evict t1 cache0)).
  assert (E1 : retain_event t1 (evict t1 cache0) ev = (true, c1)).
  { unfold retain_event. rewrite Hgroup, Hevttl, Hfree. reflexivity. }
  rewrite (run_full_single_rule T to_value render rhai_eval send r e0 facts v
             cache0 t1 Hv Hmet Hev). cbn zeta. fold ev. rewrite E1. simpl.
  (* second run *)
  assert (L2 : evict t2 c1 !! "g"%string = Some (t1, 5%N)).
  { rewrite lookup_evict. unfold c1. rewrite lookup_insert_eq.
    rewrite decide_True; [reflexivity|]. apply elapsed_below. lia. }
  assert (E2 : retain_event t2 (evict t2 c1) ev = (false, evict t2 c1)).
  { unfold retain_event. rewrite Hgroup, Hevttl, L2. reflexivity. }
  rewrite (run_full_single_rule T to_value render rhai_eval send r e0 facts v
             c1 t2 Hv Hmet Hev). cbn zeta. fold ev. rewrite E2. simpl.
  (* third run *)
  assert (L3 : evict t3 (evict t2 c1) !! "g"%string = None).
  { rewrite lookup_evict, L2. rewrite decide_False; [reflexivity|].
    apply elapsed_reached. lia. }
  assert (E3 : retain_event t3 (evict t3 (evict t2 c1)) ev
               = (true, <["g"%string := (t3, 5%N)]> (evict t3 (evict t2 c1)))).
  { unfold retain_event. rewrite Hgroup, Hevttl, L3. reflexivity. }
  rewrite (run_full_single_rule T to_value render rhai_eval send r e0 facts v
             (evict t2 c1) t3 Hv Hmet Hev). cbn zeta. fold ev. rewrite E3. simpl.
  unfold c1. rewrite !lookup_insert_eq.
  repeat split; auto.
Qed.

(* ===================================================================== *)
(** ** Witnesses *)
(* ===================================================================== *)

Definition sample_facts : Value :=
  Value.Object [("name", Value.String "A"); ("age", Value.Number (PosInt 24))].

Definition empty_cache : Coalescences := ∅.

Definition no_rhai : RhaiEval := fun _ _ => None.

Definition sample_event : CoalescenceEvent :=
  mkCoalescenceEvent (Some 5%N) (Some "g"%string)
    (Message (mkEventParams "message" "t" "age is {{age}}")).

Definition sample_rule : Rule :=
  mkRule (Condition.Condition "name" (StringEquals "A")) [sample_event].

Definition identity_render : Render := fun t _ => Some t.

Definition ok_send : Event -> Value -> result unit := fun _ _ => Ok tt.

Definition value_to_value : Value -> sum Value string := inl.

Lemma leaf_missing_field_unknown_witness :
  pointer sample_facts (field_path "height") = None /\
  status (check_value no_rhai (Condition.Condition "height" (IntEquals 3))
            sample_facts) = Unknown.
Proof.
  assert (H : pointer sample_facts (field_path "height") = None)
    by reflexivity.
  split; [exact H|].
  exact (proj2 (proj2 (leaf_missing_field_unknown no_rhai "height" sample_facts H))
           (IntEquals 3)).
Defined.

Lemma float_equality_tolerance_witness :
  as_f64 (Value.Number (Float 1)) = Some 1%float /\
  (ConstraintRs.check_value (FloatEquals 1) (Value.Number (Float 1)) = Met <->
   float_close 1 1 = true).
Proof.
  split; [reflexivity|].
  exact (proj1 (float_equality_tolerance 1 1 (Value.Number (Float 1)) eq_refl)).
Defined.

Lemma partial_coalescence_never_suppressed_witness :
  let ev := mkCoalescenceEvent None (Some "g"%string)
              (Message (mkEventParams "message" "t" "m")) in
  (coalescence_group ev = None \/ coalescence ev = None) /\
  retain_event 0 empty_cache ev = (true, empty_cache).
Proof.
  cbn zeta.
  assert (H : coalescence_group (mkCoalescenceEvent None (Some "g"%string)
                (Message (mkEventParams "message" "t" "m"))) = None \/
              coalescence (mkCoalescenceEvent None (Some "g"%string)
                (Message (mkEventParams "message" "t" "m"))) = None)
    by (right; reflexivity).
  split; [exact H|].
  exact (proj1 (partial_coalescence_never_suppressed 0 empty_cache _ [] [] H)).
Defined.

Lemma coalescence_window_witness :
  (run_full Value value_to_value identity_render no_rhai ok_send
     (mkEngine [sample_rule] empty_cache) 0 sample_facts).1.2
  = Ok [RuleResult.mk (check_value no_rhai (conditions sample_rule) sample_facts)
          [render_event identity_render sample_facts sample_event]].
Proof.
  exact (proj1 (coalescence_window Value value_to_value identity_render no_rhai
                  ok_send sample_rule sample_event sample_facts sample_facts empty_cache
                  0 1000000000 5000000000
                  eq_refl eq_refl eq_refl eq_refl eq_refl
                  ltac:(vm_compute; reflexivity)
                  ltac:(lia) ltac:(lia))).
Defined.

(* ===================================================================== *)
(** ** Further properties of the code *)
(* ===================================================================== *)

(** *** Status algebra and the [And] / [Or] folds *)

Lemma fold_bitand_from (l : list Status) (a : Status) :
  fold_left bitand l a = a &&& fold_left bitand l Met.
Proof.
  revert a. induction l as [|x l IH]; intros a; cbn [fold_left].
  - destruct a; reflexivity.
  - rewrite (IH (a &&& x)), (IH (Met &&& x)).
    destruct a, x, (fold_left bitand l Met); reflexivity.
Qed.

Lemma fold_bitor_from (l : list Status) (a : Status) :
  fold_left bitor l a = a ||| fold_left bitor l NotMet.
Proof.
  revert a. induction l as [|x l IH]; intros a; cbn [fold_left].
  - destruct a; reflexivity.
  - rewrite (IH (a ||| x)), (IH (NotMet ||| x)).
    destruct a, x, (fold_left bitor l NotMet); reflexivity.
Qed.

Lemma fold_bitand_spec (l : list Status) :
  (fold_left bitand l Met = Met <-> Forall (fun s => s = Met) l) /\
  (fold_left bitand l Met = NotMet <-> In NotMet l) /\
  (fold_left bitand l Met = Unknown <-> ~ In NotMet l /\ In Unknown l).
Proof.
  induction l as [|x l IH].
  - simpl. repeat split; intros; try discriminate; try tauto; constructor.
  - simpl fold_left. rewrite fold_bitand_from, Forall_cons. simpl.
    destruct IH as (IH1 & IH2 & IH3).
    destruct x, (fold_left bitand l Met); simpl;
      intuition (try discriminate; try congruence).
Qed.

Lemma fold_bitor_spec (l : list Status) :
  (fold_left bitor l NotMet = Met <-> In Met l) /\
  (fold_left bitor l NotMet = NotMet <-> Forall (fun s => s = NotMet) l) /\
  (fold_left bitor l NotMet = Unknown <-> ~ In Met l /\ In Unknown l).
Proof.
  induction l as [|x l IH].
  - simpl. repeat split; intros; try discriminate; try tauto; constructor.
  - simpl fold_left. rewrite fold_bitor_from, Forall_cons. simpl.
    destruct IH as (IH1 & IH2 & IH3).
    destruct x, (fold_left bitor l NotMet); simpl;
      intuition (try discriminate; try congruence).
Qed.

(** The [Status] operators: De Morgan's laws, [Met] and [NotMet] as the
    units of AND and OR, [NotMet] and [Met] as their absorbing elements,
    and idempotence. *)
Theorem status_de_morgan_units :
  (forall a b, status_not (a &&& b) = status_not a ||| status_not b) /\
  (forall a b, status_not (a ||| b) = status_not a &&& status_not b) /\
  (forall a, Met &&& a = a /\ NotMet ||| a = a) /\
  (forall a, NotMet &&& a = NotMet /\ Met ||| a = Met) /\
  (forall a, a &&& a = a /\ a ||| a = a).
Proof.
  repeat split; intros;
    repeat match goal with s : Status |- _ => destruct s; clear s end;
    reflexivity.
Qed.

(** An [And] node is [Met] exactly when all its children are [Met],
    [NotMet] exactly when one of them is [NotMet], and [Unknown] exactly
    when none is [NotMet] and one is [Unknown]. *)
Theorem and_status_spec (rhai_eval : RhaiEval) (cs : list Condition.t)
    (info : Value) :
  let st := status (check_value rhai_eval (Condition.And cs) info) in
  let ss := map (fun c => status (check_value rhai_eval c info)) cs in
  (st = Met <-> Forall (fun s => s = Met) ss) /\
  (st = NotMet <-> In NotMet ss) /\
  (st = Unknown <-> ~ In NotMet ss /\ In Unknown ss).
Proof.
  cbn zeta. simpl. rewrite fold_left_map_status, map_map_status.
  apply fold_bitand_spec.
Qed.

(** An [Or] node is [Met] exactly when one of its children is [Met],
    [NotMet] exactly when all of them are [NotMet], and [Unknown] exactly
    when none is [Met] and one is [Unknown]. *)
Theorem or_status_spec (rhai_eval : RhaiEval) (cs : list Condition.t)
    (info : Value) :
  let st := status (check_value rhai_eval (Condition.Or cs) info) in
  let ss := map (fun c => status (check_value rhai_eval c info)) cs in
  (st = Met <-> In Met ss) /\
  (st = NotMet <-> Forall (fun s => s = NotMet) ss) /\
  (st = Unknown <-> ~ In Met ss /\ In Unknown ss).
Proof.
  cbn zeta. simpl. rewrite fold_left_map_status, map_map_status.
  apply fold_bitor_spec.
Qed.

(** [And] and [Or] nodes compose: splitting the children into two nodes
    and combining them with AND (resp. OR) gives the same status; a node
    with one child has that child's status; with no child, [And] is [Met]
    and [Or] is [NotMet]. *)
Theorem and_or_compose (rhai_eval : RhaiEval) (info : Value)
    (cs1 cs2 : list Condition.t) (c : Condition.t) :
  status (check_value rhai_eval (Condition.And (cs1 ++ cs2)) info)
  = status (check_value rhai_eval (Condition.And cs1) info)
    &&& status (check_value rhai_eval (Condition.And cs2) info) /\
  status (check_value rhai_eval (Condition.Or (cs1 ++ cs2)) info)
  = status (check_value rhai_eval (Condition.Or cs1) info)
    ||| status (check_value rhai_eval (Condition.Or cs2) info) /\
  status (check_value rhai_eval (Condition.And [c]) info)
  = status (check_value rhai_eval c info) /\
  status (check_value rhai_eval (Condition.Or [c]) info)
  = status (check_value rhai_eval c info) /\
  status (check_value rhai_eval (Condition.And []) info) = Met /\
  status (check_value rhai_eval (Condition.Or []) info) = NotMet.
Proof.
  simpl. rewrite !fold_left_map_status, !map_app, !fold_left_app.
  split; [apply fold_bitand_from|].
  split; [apply fold_bitor_from|].
  destruct (status (check_value rhai_eval c info)); repeat split.
Qed.

Lemma fold_bitand_known (l : list Status) :
  Forall (fun s => s <> Unknown) l -> fold_left bitand l Met <> Unknown.
Proof.
  intros Hl Hu. apply fold_bitand_spec in Hu. destruct Hu as [_ Hu].
  rewrite List.Forall_forall in Hl. apply (Hl Unknown); [exact Hu | reflexivity].
Qed.

Lemma fold_bitor_known (l : list Status) :
  Forall (fun s => s <> Unknown) l -> fold_left bitor l NotMet <> Unknown.
Proof.
  intros Hl Hu. apply fold_bitor_spec in Hu. destruct Hu as [_ Hu].
  rewrite List.Forall_forall in Hl. apply (Hl Unknown); [exact Hu | reflexivity].
Qed.

Lemma children_known (rhai_eval : RhaiEval) (info : Value)
    (cs : list Condition.t) :
  Forall (fun c => fields_resolve info c = true ->
                   status (check_value rhai_eval c info) <> Unknown) cs ->
  forallb (fields_resolve info) cs = true ->
  Forall (fun s => s <> Unknown)
    (map (fun c => status (check_value rhai_eval c info)) cs).
Proof.
  induction 1 as [|c cs Hc Hcs IH]; simpl; intros H; [constructor|].
  apply andb_true_iff in H as [H1 H2].
  constructor; [apply Hc, H1 | apply IH, H2].
Qed.

(** [Unknown] only comes from a missing field: when every leaf's field
    resolves in the facts, the status of the tree is [Met] or [NotMet]
    ([Eval] and [AtLeast] nodes never give [Unknown]). *)
Theorem unknown_needs_missing_field (rhai_eval : RhaiEval) (info : Value)
    (c : Condition.t) (Hres : fields_resolve info c = true) :
  status (check_value rhai_eval c info) <> Unknown.
Proof.
  revert Hres. induction c as [cs IH|cs IH|n cs IH|f k|e] using condition_ind';
    simpl; intros Hres.
  - rewrite fold_left_map_status, map_map_status.
    apply fold_bitand_known, children_known; assumption.
  - rewrite fold_left_map_status, map_map_status.
    apply fold_bitor_known, children_known; assumption.
  - destruct (Nat.leb n _); discriminate.
  - destruct (pointer info (field_path f)) as [s|]; [|discriminate].
    destruct (check_constraint_cases k s) as [E|E]; rewrite E; discriminate.
  - destruct (rhai_eval e info) as [[]|]; discriminate.
Qed.

(** *** Operators of [Constraint::check_value] *)

Lemma forallb_negb {A} (f : A -> bool) (l : list A) :
  forallb (fun x => negb (f x)) l = negb (existsb f l).
Proof.
  induction l as [|x l IH]; simpl; [reflexivity|].
  rewrite IH. destruct (f x); reflexivity.
Qed.

Lemma status_not_met (b : bool) : status_not (met b) = met (negb b).
Proof. destruct b; reflexivity. Qed.

Lemma met_iff (b : bool) : met b = Met <-> b = true.
Proof. destruct b; simpl; split; congruence. Qed.

Lemma existsb_filter_map {A B} (conv : A -> option B) (p : B -> bool)
    (l : list A) :
  existsb p (filter_map conv l) = true <->
  exists x y, In x l /\ conv x = Some y /\ p y = true.
Proof.
  induction l as [|x l IH]; simpl.
  - split; [discriminate|]. intros (? & ? & [] & _).
  - destruct (conv x) as [y|] eqn:Ex; simpl.
    + rewrite orb_true_iff, IH. split.
      * intros [H|(x' & y' & H1 & H2 & H3)]; [exists x, y; auto|].
        exists x', y'; auto.
      * intros (x' & y' & [<-|H1] & H2 & H3); [left; congruence|].
        right. exists x', y'. auto.
    + rewrite IH. split.
      * intros (x' & y' & H1 & H2 & H3). exists x', y'. auto.
      * intros (x' & y' & [<-|H1] & H2 & H3); [congruence|].
        exists x', y'. auto.
Qed.

Ltac destruct_conv v :=
  first
  [ match goal with |- context [as_array v] => destruct (as_array v) as [?l|] eqn:?E end
  | match goal with |- context [as_str v] => destruct (as_str v) as [?x|] eqn:?E end
  | match goal with |- context [as_i64 v] => destruct (as_i64 v) as [?x|] eqn:?E end
  | match goal with |- context [as_f64 v] => destruct (as_f64 v) as [?x|] eqn:?E end ].

(** The negated operators: on a value of the shape an operator expects,
    its negated form ([StringNotEquals] for [StringEquals],
    [StringDoesNotContainAny] for [StringContainsAny], [IntNotInRange] for
    [IntInRange], [IntGreaterThanInclusive] for [IntLessThan], ...) gives
    the NOT of its status. *)
Theorem negated_is_not (c c' : Constraint) (v : Value)
    (Hneg : negated c = Some c') (Hc : coercible c v = true) :
  check_constraint c' v = status_not (check_constraint c v).
Proof.
  destruct c; simpl in Hneg; inversion Hneg; subst; clear Hneg;
    simpl in Hc |- *; unfold array_of; destruct_conv v;
    try (exfalso; apply bool_decide_eq_true in Hc as [? Hx]; congruence);
    simpl; rewrite ?forallb_negb, ?status_not_met, ?Z.leb_antisym;
    try reflexivity;
    match goal with |- context [if ?b then _ else _] => destruct b end;
    reflexivity.
Qed.

(** Empty operand lists: on an array, [ContainsAll []] and
    [DoesNotContainAny []] are [Met] and [ContainsAny []] is [NotMet]; on
    a value of the type, [In []] is [NotMet] and [NotIn []] is [Met]. *)
Theorem empty_operand_lists :
  (forall v, is_Some (as_array v) ->
     check_constraint (StringContainsAll []) v = Met /\
     check_constraint (IntContainsAll []) v = Met /\
     check_constraint (StringContainsAny []) v = NotMet /\
     check_constraint (IntContainsAny []) v = NotMet /\
     check_constraint (StringDoesNotContainAny []) v = Met /\
     check_constraint (IntDoesNotContainAny []) v = Met) /\
  (forall v, is_Some (as_str v) ->
     check_constraint (StringIn []) v = NotMet /\
     check_constraint (StringNotIn []) v = Met) /\
  (forall v, is_Some (as_i64 v) ->
     check_constraint (IntIn []) v = NotMet /\
     check_constraint (IntNotIn []) v = Met) /\
  (forall v, is_Some (as_f64 v) ->
     check_constraint (FloatIn []) v = NotMet /\
     check_constraint (FloatNotIn []) v = Met).
Proof.
  split; [|split; [|split]]; intros v [x Hx]; simpl; unfold array_of;
    rewrite Hx; simpl; repeat split.
Qed.

(** The [Contains] operators look only at the array elements of their
    type: [StringContains s] is [Met] on an array exactly when one element
    is the string [s], [IntContains n] when one element is an [i64] equal
    to [n], [FloatContains f] when one element read as [f64] equals [f];
    elements of other types are skipped. *)
Theorem contains_by_type (l : list Value) (s : string) (num : Z) (f : float) :
  (check_constraint (StringContains s) (Value.Array l) = Met <->
   exists x, In x l /\ as_str x = Some s) /\
  (check_constraint (IntContains num) (Value.Array l) = Met <->
   exists x, In x l /\ as_i64 x = Some num) /\
  (check_constraint (FloatContains f) (Value.Array l) = Met <->
   exists x y, In x l /\ as_f64 x = Some y /\ PrimFloat.eqb y f = true).
Proof.
  simpl. unfold contains_str, contains_i64, contains_f64.
  rewrite !met_iff, !existsb_filter_map.
  split; [|split]; [| |reflexivity]; split.
  - intros (x & y & H1 & H2 & H3). apply String.eqb_eq in H3. subst.
    exists x. auto.
  - intros (x & H1 & H2). exists x, s. rewrite String.eqb_refl. auto.
  - intros (x & y & H1 & H2 & H3). apply Z.eqb_eq in H3. subst.
    exists x. auto.
  - intros (x & H1 & H2). exists x, num. rewrite Z.eqb_refl. auto.
Qed.

(** [IntInRange start end_] includes both bounds and [IntNotInRange] is
    [Met] exactly outside them, on [i64] values; with [end_ < start] the
    range is empty and [IntInRange] is never [Met]. *)
Theorem int_range_bounds :
  (forall start end_ v x, as_i64 v = Some x ->
     (check_constraint (IntInRange start end_) v = Met <-> start <= x <= end_) /\
     (check_constraint (IntNotInRange start end_) v = Met <->
      x < start \/ end_ < x)) /\
  (forall start end_ v, end_ < start ->
     check_constraint (IntInRange start end_) v = NotMet).
Proof.
  split.
  - intros start end_ v x Hx. simpl. rewrite Hx. simpl.
    destruct (Z.leb_spec start x), (Z.leb_spec x end_); simpl;
      split; split; intros; try discriminate; try reflexivity; lia.
  - intros start end_ v Hlt. simpl. destruct (as_i64 v) as [x|]; simpl;
      [|reflexivity].
    destruct (Z.leb_spec start x), (Z.leb_spec x end_); simpl;
      try reflexivity; lia.
Qed.

(** One-element operand lists: [In [s]] is [Equals s], [NotIn [s]] is
    [NotEquals s], and [ContainsAll [s]], [ContainsAny [s]] are
    [Contains s] and [DoesNotContainAny [s]] is [DoesNotContain s], for
    strings and integers. *)
Theorem singleton_operands (v : Value) (s : string) (num : Z) :
  check_constraint (StringIn [s]) v = check_constraint (StringEquals s) v /\
  check_constraint (StringNotIn [s]) v = check_constraint (StringNotEquals s) v /\
  check_constraint (StringContainsAll [s]) v
  = check_constraint (StringContains s) v /\
  check_constraint (StringContainsAny [s]) v
  = check_constraint (StringContains s) v /\
  check_constraint (StringDoesNotContainAny [s]) v
  = check_constraint (StringDoesNotContain s) v /\
  check_constraint (IntIn [num]) v = check_constraint (IntEquals num) v /\
  check_constraint (IntNotIn [num]) v = check_constraint (IntNotEquals num) v /\
  check_constraint (IntContainsAll [num]) v
  = check_constraint (IntContains num) v /\
  check_constraint (IntContainsAny [num]) v
  = check_constraint (IntContains num) v /\
  check_constraint (IntDoesNotContainAny [num]) v
  = check_constraint (IntDoesNotContain num) v.
Proof.
  repeat split; simpl; unfold array_of; destruct_conv v; simpl;
    rewrite ?orb_false_r, ?andb_true_r; try reflexivity;
    first [rewrite String.eqb_sym | rewrite Z.eqb_sym]; reflexivity.
Qed.

(** Numbers that are not [i64] (floats, even integral ones, and unsigned
    integers above [i64::MAX]) make every integer comparison [NotMet],
    the negated ones included; the float operators still read unsigned
    integers, as [f64]. *)
Theorem int_ops_need_i64 :
  (forall v, as_i64 v = None ->
   forall num nums start end_,
     check_constraint (IntEquals num) v = NotMet /\
     check_constraint (IntNotEquals num) v = NotMet /\
     check_constraint (IntIn nums) v = NotMet /\
     check_constraint (IntNotIn nums) v = NotMet /\
     check_constraint (IntInRange start end_) v = NotMet /\
     check_constraint (IntNotInRange start end_) v = NotMet /\
     check_constraint (IntLessThan num) v = NotMet /\
     check_constraint (IntLessThanInclusive num) v = NotMet /\
     check_constraint (IntGreaterThan num) v = NotMet /\
     check_constraint (IntGreaterThanInclusive num) v = NotMet) /\
  (forall f, as_i64 (Value.Number (Float f)) = None) /\
  (forall n, i64_MAX < n ->
     as_i64 (Value.Number (PosInt n)) = None /\
     as_f64 (Value.Number (PosInt n)) = Some (int_as_f64 n)).
Proof.
  split; [|split].
  - intros v Hv num nums start end_. simpl. rewrite Hv. repeat split.
  - reflexivity.
  - intros n Hn. simpl. split; [|reflexivity].
    destruct (Z.leb_spec n i64_MAX); [lia | reflexivity].
Qed.

(** *** Leaf fields and [Value::pointer] *)

Lemma field_path_idem (f : string) : field_path (field_path f) = field_path f.
Proof.
  unfold field_path. destruct (String.prefix "/" f) eqn:E;
    [rewrite E; reflexivity | destruct f; reflexivity].
Qed.

(** A leaf's field with and without the leading ["/"] name the same
    place: the leaf on [field] and the leaf on its normalised path
    (["/" ++ field] when [field] has no leading ["/"]) have the same
    status. *)
Theorem leaf_leading_slash_optional (rhai_eval : RhaiEval) (info : Value)
    (field : string) (c : Constraint) :
  status (check_value rhai_eval (Condition.Condition field c) info)
  = status (check_value rhai_eval (Condition.Condition (field_path field) c) info) /\
  (String.prefix "/" field = false ->
   status (check_value rhai_eval (Condition.Condition field c) info)
   = status (check_value rhai_eval
               (Condition.Condition (String.append "/" field) c) info)).
Proof.
  split.
  - simpl. rewrite field_path_idem. reflexivity.
  - intros Hp. simpl. rewrite <- field_path_idem.
    unfold field_path at 2. rewrite Hp. reflexivity.
Qed.

Lemma str_app_cons (x : ascii) (a b : string) :
  String.append (String x a) b = String x (String.append a b).
Proof. reflexivity. Qed.

Lemma str_app_assoc (a b c : string) :
  String.append a (String.append b c) = String.append (String.append a b) c.
Proof.
  induction a as [|x a IH]; [reflexivity|]. rewrite !str_app_cons, IH.
  reflexivity.
Qed.

Lemma str_app_nil (a : string) : String.append a EmptyString = a.
Proof.
  induction a as [|x a IH]; [reflexivity|]. rewrite str_app_cons, IH.
  reflexivity.
Qed.

Lemma split_aux_plain (k cur : string) :
  plain_key k = true -> split_aux "/" k cur = [String.append cur k].
Proof.
  revert cur. induction k as [|x k IH]; intros cur Hk; simpl.
  - rewrite str_app_nil. reflexivity.
  - simpl in Hk. destruct (ascii_dec x "/"); [discriminate|].
    destruct (ascii_dec x "~"); [discriminate|].
    rewrite IH by exact Hk. rewrite <- str_app_assoc. reflexivity.
Qed.

Lemma split_aux_plain_sep (k rest cur : string) :
  plain_key k = true ->
  split_aux "/" (String.append k (String "/" rest)) cur
  = String.append cur k :: split_aux "/" rest EmptyString.
Proof.
  revert cur. induction k as [|x k IH]; intros cur Hk;
    rewrite ?str_app_cons; simpl.
  - rewrite str_app_nil. reflexivity.
  - simpl in Hk. destruct (ascii_dec x "/"); [discriminate|].
    destruct (ascii_dec x "~"); [discriminate|].
    rewrite IH by exact Hk. rewrite <- str_app_assoc. reflexivity.
Qed.

Lemma concat_cons2 (sep k k' : string) (ks : list string) :
  String.concat sep (k :: k' :: ks)
  = String.append k (String.append sep (String.concat sep (k' :: ks))).
Proof. reflexivity. Qed.

Lemma split_concat_plain (ks : list string) (k : string) :
  forallb plain_key (k :: ks) = true ->
  split_aux "/" (String.concat "/" (k :: ks)) EmptyString = k :: ks.
Proof.
  revert k. induction ks as [|k' ks IH]; intros k Hks.
  - simpl in Hks. apply andb_true_iff in Hks as [Hk _].
    simpl String.concat. rewrite split_aux_plain by exact Hk. reflexivity.
  - rewrite concat_cons2.
    change (forallb plain_key (k :: k' :: ks))
      with (plain_key k && forallb plain_key (k' :: ks)) in Hks.
    apply andb_true_iff in Hks as [Hk Hks].
    change (String.append "/" ?r) with (String "/" r).
    rewrite split_aux_plain_sep by exact Hk.
    rewrite IH by exact Hks. reflexivity.
Qed.

Lemma replace2_plain (rep k : string) :
  plain_key k = true -> forall b, replace2 "~" b rep k = k.
Proof.
  induction k as [|x k IH]; intros Hk b; simpl; [reflexivity|].
  simpl in Hk. destruct (ascii_dec x "/"); [discriminate|].
  destruct (ascii_dec x "~"); [discriminate|].
  rewrite IH by exact Hk. reflexivity.
Qed.

Lemma unescape_plain (k : string) : plain_key k = true -> unescape k = k.
Proof.
  intros Hk. unfold unescape.
  rewrite (replace2_plain "/" k Hk), (replace2_plain "~" k Hk). reflexivity.
Qed.

Lemma pointer_slash (v : Value) (r : string) :
  pointer v (String "/" r)
  = pointer_tokens v (map unescape (split_aux "/" r EmptyString)).
Proof. reflexivity. Qed.

Lemma map_unescape_plain (ks : list string) :
  forallb plain_key ks = true -> map unescape ks = ks.
Proof.
  induction ks as [|k ks IH]; simpl; intros H; [reflexivity|].
  apply andb_true_iff in H as [H1 H2].
  rewrite unescape_plain, IH by assumption. reflexivity.
Qed.

(** Field names without ["/"] or ["~"] are read as written: the pointer
    ["/k1/k2/..."] walks the keys [k1], [k2], ... in turn (object keys, or
    indices into arrays), and a leaf on a top-level field [k] of a JSON
    object tests the value under the key [k], and is [Unknown] when there
    is none. *)
Theorem pointer_plain_path (rhai_eval : RhaiEval) (v : Value) (k : string)
    (ks : list string) (Hplain : forallb plain_key (k :: ks) = true) :
  pointer v (String "/" (String.concat "/" (k :: ks)))
  = pointer_tokens v (k :: ks) /\
  forall (m : list (string * Value)) (c : Constraint),
    status (check_value rhai_eval (Condition.Condition k c) (Value.Object m))
    = match map_get m k with
      | Some x => check_constraint c x
      | None => Unknown
      end.
Proof.
  split.
  - rewrite pointer_slash, split_concat_plain by exact Hplain.
    rewrite map_unescape_plain by exact Hplain. reflexivity.
  - intros m c. simpl in Hplain. apply andb_true_iff in Hplain as [Hk _].
    assert (Hf : field_path k = String "/" k).
    { unfold field_path. destruct k as [|x k']; [reflexivity|].
      simpl in Hk. destruct (ascii_dec x "/"); [discriminate|].
      change (String.prefix "/" (String x k'))
        with (match ascii_dec "/" x with
              | left _ => String.prefix "" k'
              | right _ => false
              end).
      destruct (ascii_dec "/" x); [congruence | reflexivity]. }
    simpl. rewrite Hf, pointer_slash, split_aux_plain by exact Hk.
    change (String.append EmptyString k) with k. simpl.
    rewrite unescape_plain by exact Hk.
    destruct (map_get m k); reflexivity.
Qed.

(** *** Rendering and dispatch *)

(** When the templates of each of the rule's events (its message, its
    callback URL and its coalescence group) fail to render,
    [Rule::check_value] returns the rule's events verbatim. *)
Theorem failed_render_keeps_events (render : Render) (rhai_eval : RhaiEval)
    (self : Rule) (info : Value)
    (Hfail : Forall (templates_fail render info) (events self)) :
  rule_check_value render rhai_eval self info
  = RuleResult.mk (check_value rhai_eval (conditions self) info) (events self).
Proof.
  unfold rule_check_value. f_equal.
  induction Hfail as [|ce evs [Hg He] _ IH]; simpl; [reflexivity|].
  rewrite IH. f_equal.
  destruct ce as [co g ev]. unfold render_event, render_params, render_or_keep.
  simpl in *. destruct g as [g|]; [rewrite Hg|];
    destruct ev as [[t ti m]|u [t ti m] a|fr to [t ti m]]; simpl in *;
    [rewrite He| destruct He as [-> ->] | rewrite He
    |rewrite He| destruct He as [-> ->] | rewrite He]; reflexivity.
Qed.

Lemma in_filter_map {A B} (f : A -> option B) (l : list A) (y : B) :
  In y (filter_map f l) <-> exists x, In x l /\ f x = Some y.
Proof.
  induction l as [|x l IH]; simpl.
  - split; [intros []|]. intros (? & [] & _).
  - destruct (f x) as [z|] eqn:Ex; simpl; rewrite IH; split.
    + intros [<-|(x' & H1 & H2)]; [exists x; auto|]. exists x'. auto.
    + intros (x' & [<-|H1] & H2); [left; congruence|]. right. exists x'. auto.
    + intros (x' & H1 & H2). exists x'. auto.
    + intros (x' & [<-|H1] & H2); [congruence|]. exists x'. auto.
Qed.

(** The requests [run] sends are the [PostToCallbackUrl] events and the
    [EmailNotification] events with at least one recipient among the
    events it returns; a [Message] event, or an email without recipient,
    is never sent. *)
Theorem requests_spec (rrs : list RuleResult) (e : Event) :
  In e (requests rrs) <->
  exists rr ce, In rr rrs /\ In ce (RuleResult.events rr) /\ event ce = e /\
    match e with
    | PostToCallbackUrl _ _ _ => True
    | EmailNotification _ to _ => to <> []
    | Message _ => False
    end.
Proof.
  unfold requests. rewrite in_concat. split.
  - intros (l & Hl & He). apply in_map_iff in Hl as (rr & <- & Hrr).
    apply in_filter_map in He as (ce & Hce & Hr).
    exists rr, ce. split; [exact Hrr|]. split; [exact Hce|].
    unfold request_of in Hr.
    destruct (event ce) as [p|u p a|f [|t ts] p]; inversion Hr; subst;
      split; auto; discriminate.
  - intros (rr & ce & Hrr & Hce & Hev & Hk).
    exists (filter_map request_of (RuleResult.events rr)).
    split; [apply in_map_iff; exists rr; auto|].
    apply in_filter_map. exists ce. split; [exact Hce|].
    unfold request_of. rewrite Hev.
    destruct e as [p|u p a|f [|t ts] p]; simpl in Hk; try contradiction;
      try reflexivity; congruence.
Qed.

(** *** Coalescence across the events of one run *)

Lemma nodup_app_disj {A} (l1 l2 : list A) :
  List.NoDup l1 -> List.NoDup l2 -> (forall x, In x l1 -> ~ In x l2) ->
  List.NoDup (l1 ++ l2).
Proof.
  induction 1 as [|x l1 Hx Hl1 IH]; intros H2 Hd; simpl; [exact H2|].
  apply List.NoDup_cons.
  - rewrite in_app_iff. intros [H|H]; [contradiction|].
    apply (Hd x); [left; reflexivity | exact H].
  - apply IH; [exact H2|]. intros y Hy. apply Hd. right. exact Hy.
Qed.

Lemma keyed_group_some (ce : CoalescenceEvent) (g : string) :
  keyed_group ce = Some g ->
  coalescence_group ce = Some g /\ exists c, coalescence ce = Some c.
Proof.
  unfold keyed_group.
  destruct (coalescence_group ce), (coalescence ce) as [c|]; intros H;
    try discriminate.
  injection H as ->. eauto.
Qed.

Lemma retain_events_inv (now : N) (evs : list CoalescenceEvent) :
  forall (cache : Coalescences) kept cache',
  retain_events now cache evs = (kept, cache') ->
  List.NoDup (filter_map keyed_group kept) /\
  (forall g, In g (filter_map keyed_group kept) -> cache !! g = None) /\
  (forall ce g c, In ce kept -> coalescence_group ce = Some g ->
     coalescence ce = Some c -> cache' !! g = Some (now, c)) /\
  (forall k e, cache !! k = Some e -> cache' !! k = Some e) /\
  (forall k e, cache' !! k = Some e ->
     cache !! k = Some e \/
     (e.1 = now /\ exists ce, In ce kept /\ coalescence_group ce = Some k /\
                             coalescence ce = Some e.2)).
Proof.
  induction evs as [|ev evs IH]; intros cache kept cache' Hr; simpl in Hr.
  - injection Hr as <- <-. simpl.
    split; [constructor|]. split; [intros g []|].
    split; [intros ce g c []|]. split; auto.
  - destruct (retain_event now cache ev) as [keep cache1] eqn:Hev.
    destruct (retain_events now cache1 evs) as [kept1 cache2] eqn:Hrs.
    injection Hr as <- <-.
    destruct (IH cache1 kept1 cache2 Hrs) as (Ha & Hb & Hc & Hd & He).
    unfold retain_event in Hev.
    destruct (coalescence_group ev) as [g|] eqn:Hg;
      [destruct (coalescence ev) as [c|] eqn:Ht;
       [destruct (cache !! g) as [e0|] eqn:Hl|]|].
    + (* a live entry for the group: the event is dropped *)
      injection Hev as <- <-.
      split; [exact Ha|]. split; [exact Hb|]. split; [exact Hc|].
      split; [exact Hd|]. exact He.
    + (* no entry: the event is kept and its group recorded *)
      injection Hev as <- <-.
      assert (Hk : keyed_group ev = Some g)
        by (unfold keyed_group; rewrite Hg, Ht; reflexivity).
      assert (Hin : <[g := (now, c)]> cache !! g = Some (now, c))
        by apply lookup_insert_eq.
      simpl. rewrite Hk.
      split; [|split; [|split; [|split]]].
      * apply List.NoDup_cons; [|exact Ha].
        intros H. apply Hb in H. congruence.
      * intros g' [<-|H]; [exact Hl|].
        apply Hb in H. destruct (decide (g = g')) as [<-|Hne]; [congruence|].
        rewrite lookup_insert_ne in H by exact Hne. exact H.
      * intros ce g' c' [<-|H] Hg' Ht'; [|eapply Hc; eauto].
        rewrite Hg in Hg'. rewrite Ht in Ht'. injection Hg' as <-.
        injection Ht' as <-. apply Hd. exact Hin.
      * intros k e H. apply Hd.
        destruct (decide (g = k)) as [<-|Hne]; [congruence|].
        rewrite lookup_insert_ne by exact Hne. exact H.
      * intros k e H. apply He in H as [H|(Hnow & ce & Hce & Hgk & Htk)].
        -- destruct (decide (g = k)) as [<-|Hne].
           ++ rewrite Hin in H. injection H as <-. right.
              split; [reflexivity|]. exists ev. simpl. auto.
           ++ rewrite lookup_insert_ne in H by exact Hne. left. exact H.
        -- right. split; [exact Hnow|]. exists ce. simpl. auto.
    + (* a group without TTL: kept, cache untouched *)
      injection Hev as <- <-.
      assert (Hk : keyed_group ev = None)
        by (unfold keyed_group; rewrite Hg, Ht; reflexivity).
      simpl. rewrite Hk.
      split; [exact Ha|]. split; [exact Hb|].
      split; [intros ce g' c' [<-|H] Hg' Ht'; [congruence | eapply Hc; eauto]|].
      split; [exact Hd|].
      intros k e H. apply He in H as [H|(Hnow & ce & Hce & Hgk & Htk)]; [left; exact H|].
      right. split; [exact Hnow|]. exists ce. simpl. auto.
    + (* no group: kept, cache untouched *)
      injection Hev as <- <-.
      assert (Hk : keyed_group ev = None)
        by (unfold keyed_group; rewrite Hg; reflexivity).
      simpl. rewrite Hk.
      split; [exact Ha|]. split; [exact Hb|].
      split; [intros ce g' c' [<-|H] Hg' Ht'; [congruence | eapply Hc; eauto]|].
      split; [exact Hd|].
      intros k e H. apply He in H as [H|(Hnow & ce & Hce & Hgk & Htk)]; [left; exact H|].
      right. split; [exact Hnow|]. exists ce. simpl. auto.
Qed.

Lemma coalesce_results_inv (now : N) (rrs : list RuleResult) :
  forall (cache : Coalescences) rrs' cache',
  coalesce_results now cache rrs = (rrs', cache') ->
  List.NoDup (keyed_groups rrs') /\
  (forall g, In g (keyed_groups rrs') -> cache !! g = None) /\
  (forall rr ce g c, In rr rrs' -> In ce (RuleResult.events rr) ->
     coalescence_group ce = Some g -> coalescence ce = Some c ->
     cache' !! g = Some (now, c)) /\
  (forall k e, cache !! k = Some e -> cache' !! k = Some e) /\
  (forall k e, cache' !! k = Some e ->
     cache !! k = Some e \/
     (e.1 = now /\ exists rr ce, In rr rrs' /\ In ce (RuleResult.events rr) /\
        coalescence_group ce = Some k /\ coalescence ce = Some e.2)).
Proof.
  induction rrs as [|rr rrs IH]; intros cache rrs' cache' Hr; simpl in Hr.
  - injection Hr as <- <-. unfold keyed_groups. simpl.
    split; [constructor|]. split; [intros g []|].
    split; [intros rr ce g c []|]. split; auto.
  - destruct (retain_events now cache (RuleResult.events rr)) as [evs cache1]
      eqn:Hev.
    destruct (coalesce_results now cache1 rrs) as [rest cache2] eqn:Hrs.
    injection Hr as <- <-.
    destruct (retain_events_inv now _ cache evs cache1 Hev)
      as (Ha1 & Hb1 & Hc1 & Hd1 & He1).
    destruct (IH cache1 rest cache2 Hrs) as (Ha2 & Hb2 & Hc2 & Hd2 & He2).
    assert (Hkg : keyed_groups
                    (RuleResult.mk (RuleResult.condition_result rr) evs :: rest)
                  = filter_map keyed_group evs ++ keyed_groups rest)
      by reflexivity.
    rewrite Hkg.
    split; [|split; [|split; [|split]]].
    + apply nodup_app_disj; [exact Ha1 | exact Ha2|].
      intros x Hx1 Hx2.
      apply in_filter_map in Hx1 as (ce & Hce & Hk).
      apply keyed_group_some in Hk as (Hg & c & Ht).
      pose proof (Hc1 ce x c Hce Hg Ht) as H1.
      apply Hb2 in Hx2. congruence.
    + intros g Hgin. apply in_app_or in Hgin as [H|H]; [apply Hb1, H|].
      apply Hb2 in H. destruct (cache !! g) as [e|] eqn:E; [|reflexivity].
      apply Hd1 in E. congruence.
    + intros rr0 ce g c [<-|H] Hce Hg Ht.
      * apply Hd2. simpl in Hce. eapply Hc1; eauto.
      * eapply Hc2; eauto.
    + intros k e H. apply Hd2, Hd1, H.
    + intros k e H.
      apply He2 in H as [H|(Hnow & rr0 & ce & Hrr & Hce & Hgk & Htk)].
      * apply He1 in H as [H|(Hnow & ce & Hce & Hgk & Htk)]; [left; exact H|].
        right. split; [exact Hnow|].
        exists (RuleResult.mk (RuleResult.condition_result rr) evs), ce.
        simpl. auto.
      * right. split; [exact Hnow|]. exists rr0, ce. simpl. auto.
Qed.

Lemma run_ok_inv (T : Type) (to_value : T -> sum Value string)
    (render : Render) (rhai_eval : RhaiEval)
    (send : Event -> Value -> result unit) (self self' : Engine) (now : N)
    (facts : T) (rrs : list RuleResult) :
  run T to_value render rhai_eval send self now facts = (self', Ok rrs) ->
  exists v, to_value facts = inl v /\ rules self' = rules self /\
    coalesce_results now (evict now (coalescences self))
      (List.filter
         (fun rr => Status_eqb (status (RuleResult.condition_result rr)) Met)
         (map (fun rule => rule_check_value render rhai_eval rule v) (rules self)))
    = (rrs, coalescences self').
Proof.
  unfold run, run_full. destruct (to_value facts) as [v|e]; intros H;
    [|discriminate].
  destruct (coalesce_results _ _ _) as [rrs0 cache] eqn:E.
  injection H as <- <-. exists v. auto.
Qed.

Lemma lookup_evict_some (now : N) (cache : Coalescences) (k : string)
    (e : N * N) :
  evict now cache !! k = Some e <->
  cache !! k = Some e /\ (elapsed_secs e.1 now < e.2)%N.
Proof.
  rewrite lookup_evict. destruct (cache !! k) as [[start ttl]|]; simpl.
  - case_decide as Hlt; split; intros H.
    + injection H as <-. auto.
    + destruct H as [H1 _]. congruence.
    + discriminate.
    + destruct H as [H1 H2]. injection H1 as <-. contradiction.
  - split; [discriminate|]. intros [H _]. discriminate.
Qed.

(** Within one run, at most one event per coalescence group fires: the
    events [run] returns that have both a group and a TTL have pairwise
    distinct groups, none of which had a live entry in the cache when
    the run started, and each of them leaves the entry (now, its TTL) for
    its group in the cache. *)
Theorem run_one_event_per_group (T : Type) (to_value : T -> sum Value string)
    (render : Render) (rhai_eval : RhaiEval)
    (send : Event -> Value -> result unit) (self self' : Engine) (now : N)
    (facts : T) (rrs : list RuleResult)
    (Hrun : run T to_value render rhai_eval send self now facts
            = (self', Ok rrs)) :
  List.NoDup (keyed_groups rrs) /\
  (forall g, In g (keyed_groups rrs) ->
     evict now (coalescences self) !! g = None) /\
  (forall rr ce g c, In rr rrs -> In ce (RuleResult.events rr) ->
     coalescence_group ce = Some g -> coalescence ce = Some c ->
     coalescences self' !! g = Some (now, c)).
Proof.
  apply run_ok_inv in Hrun as (v & _ & _ & Hc).
  apply coalesce_results_inv in Hc as (Ha & Hb & Hc & _ & _).
  split; [exact Ha|]. split; [exact Hb | exact Hc].
Qed.

(** What the cache holds after a successful run: the rules are unchanged;
    every entry that was live at the start of the run is kept as it was
    (a dropped event does not extend its window); and every entry is
    either such a live entry or was recorded at [now] by a returned event
    with that group and that TTL. *)
Theorem run_cache_contents (T : Type) (to_value : T -> sum Value string)
    (render : Render) (rhai_eval : RhaiEval)
    (send : Event -> Value -> result unit) (self self' : Engine) (now : N)
    (facts : T) (rrs : list RuleResult)
    (Hrun : run T to_value render rhai_eval send self now facts
            = (self', Ok rrs)) :
  rules self' = rules self /\
  (forall k e, coalescences self !! k = Some e ->
     (elapsed_secs e.1 now < e.2)%N -> coalescences self' !! k = Some e) /\
  (forall k e, coalescences self' !! k = Some e ->
     (coalescences self !! k = Some e /\ (elapsed_secs e.1 now < e.2)%N) \/
     (e.1 = now /\ exists rr ce, In rr rrs /\ In ce (RuleResult.events rr) /\
        coalescence_group ce = Some k /\ coalescence ce = Some e.2)).
Proof.
  apply run_ok_inv in Hrun as (v & _ & Hrules & Hc).
  apply coalesce_results_inv in Hc as (_ & _ & _ & Hd & He).
  split; [exact Hrules|]. split.
  - intros k e H1 H2. apply Hd. apply lookup_evict_some. auto.
  - intros k e H. apply He in H as [H|H]; [left|right; exact H].
    apply lookup_evict_some. exact H.
Qed.

(** An entry recorded with a TTL of 0 seconds is evicted at the start of
    every later run: it never suppresses an event of a later run, and the
    next event of its group fires and records a new entry. *)
Theorem zero_ttl_expires (now t c : N) (cache : Coalescences) (g : string)
    (ev : CoalescenceEvent) (Hzero : cache !! g = Some (t, 0%N))
    (Hg : coalescence_group ev = Some g) (Hc : coalescence ev = Some c) :
  evict now cache !! g = None /\
  retain_event now (evict now cache) ev
  = (true, <[g := (now, c)]> (evict now cache)).
Proof.
  assert (H : evict now cache !! g = None).
  { rewrite lookup_evict, Hzero. rewrite decide_False; [reflexivity|]. lia. }
  split; [exact H|]. unfold retain_event. rewrite Hg, Hc, H. reflexivity.
Qed.

(** *** Engine set-up *)

Lemma filter_app_rules (f : Rule -> bool) (l1 l2 : list Rule) :
  List.filter f (l1 ++ l2) = List.filter f l1 ++ List.filter f l2.
Proof.
  induction l1 as [|x l1 IH]; simpl; [reflexivity|].
  rewrite IH. destruct (f x); reflexivity.
Qed.

Lemma evict_empty (now : N) : evict now ∅ = ∅.
Proof. unfold evict. apply map_filter_empty. Qed.

(** An engine without rules ([Engine::new], or after [clear]) returns
    [Ok] with no result and sends nothing; it only evicts the expired
    entries of its cache ([clear] and [load_rules] keep the cache).  When
    the facts cannot be serialised, the engine is left as it was. *)
Theorem run_without_rules (T : Type) (to_value : T -> sum Value string)
    (render : Render) (rhai_eval : RhaiEval)
    (send : Event -> Value -> result unit) (self : Engine) (now : N)
    (facts : T) (rs : list Rule) :
  run_full T to_value render rhai_eval send (clear self) now facts
  = match to_value facts with
    | inl _ => (mkEngine [] (evict now (coalescences self)), Ok [], [])
    | inr e => (clear self, Err (SerializeJsonError e), [])
    end /\
  run_full T to_value render rhai_eval send new now facts
  = match to_value facts with
    | inl _ => (new, Ok [], [])
    | inr e => (new, Err (SerializeJsonError e), [])
    end /\
  coalescences (clear self) = coalescences self /\
  coalescences (load_rules self rs) = coalescences self.
Proof.
  unfold run_full. split; [|split; [|split; reflexivity]].
  - destruct (to_value facts); reflexivity.
  - destruct (to_value facts); [|reflexivity]. simpl.
    rewrite evict_empty. reflexivity.
Qed.

(** [add_rules] (and [add_rule]) append: a run after [add_rules self rs]
    returns the results of the [Met] rules of [self], in order, followed
    by those of the [Met] rules of [rs]. *)
Theorem add_rules_order (T : Type) (to_value : T -> sum Value string)
    (render : Render) (rhai_eval : RhaiEval)
    (send : Event -> Value -> result unit) (self : Engine) (rs : list Rule)
    (now : N) (facts : T) (v : Value) (Hv : to_value facts = inl v) :
  (exists rrs,
     snd (run T to_value render rhai_eval send (add_rules self rs) now facts)
     = Ok rrs /\
     all2 (kept_result render rhai_eval v) rrs
       (met_rules rhai_eval v (rules self) ++ met_rules rhai_eval v rs)) /\
  (forall r, add_rule self r = add_rules self [r]).
Proof.
  split; [|reflexivity].
  destruct (run_full_ok T to_value render rhai_eval send (add_rules self rs)
              now facts v Hv) as (rrs & cache & Hc & Hr).
  exists rrs. unfold run. rewrite Hr. split; [reflexivity|].
  pose proof (coalesce_met_rules render rhai_eval v now (rules (add_rules self rs))
                (evict now (coalescences (add_rules self rs)))) as H.
  rewrite Hc in H. unfold met_rules in *. simpl in H.
  rewrite filter_app_rules in H. exact H.
Qed.

(* ===================================================================== *)
(** ** Witnesses of the further properties *)
(* ===================================================================== *)

(** A renderer that fails on the template ["{{#age}}"] (a section never
    closed) and leaves every other string as it is. *)
Definition unclosed_render : Render :=
  fun t _ => if String.eqb t "{{#age}}" then None else Some t.

(** A rule whose one event has the unclosed section as its message. *)
Definition unclosed_rule : Rule :=
  mkRule (Condition.Condition "name" (StringEquals "A"))
    [mkCoalescenceEvent None None
       (Message (mkEventParams "message" "t" "{{#age}}"))].

Definition sample_engine : Engine := mkEngine [sample_rule] empty_cache.

Definition sample_results : list RuleResult :=
  [RuleResult.mk (check_value no_rhai (conditions sample_rule) sample_facts)
     [render_event identity_render sample_facts sample_event]].

Definition zero_ttl_cache : Coalescences := <["g"%string := (0%N, 0%N)]> ∅.

Lemma unknown_needs_missing_field_witness :
  fields_resolve sample_facts (conditions sample_rule) = true /\
  status (check_value no_rhai (conditions sample_rule) sample_facts) <> Unknown.
Proof.
  split; [reflexivity|].
  exact (unknown_needs_missing_field no_rhai sample_facts (conditions sample_rule)
           eq_refl).
Defined.

Lemma negated_is_not_witness :
  check_constraint (IntNotInRange 20 30) (Value.Number (PosInt 24))
  = status_not (check_constraint (IntInRange 20 30) (Value.Number (PosInt 24))).
Proof.
  exact (negated_is_not (IntInRange 20 30) (IntNotInRange 20 30)
           (Value.Number (PosInt 24)) eq_refl eq_refl).
Defined.

Lemma pointer_plain_path_witness :
  pointer (Value.Object [("user"%string, sample_facts)])
    (String "/" (String.concat "/" ["user"; "name"]%string))
  = Some (Value.String "A").
Proof.
  rewrite (proj1 (pointer_plain_path no_rhai
                    (Value.Object [("user"%string, sample_facts)]) "user"
                    ["name"%string] eq_refl)).
  reflexivity.
Defined.

Lemma failed_render_keeps_events_witness :
  Forall (templates_fail unclosed_render sample_facts) (events unclosed_rule) /\
  rule_check_value unclosed_render no_rhai unclosed_rule sample_facts
  = RuleResult.mk (check_value no_rhai (conditions unclosed_rule) sample_facts)
      (events unclosed_rule).
Proof.
  assert (H : Forall (templates_fail unclosed_render sample_facts)
                (events unclosed_rule))
    by (repeat constructor).
  split; [exact H|].
  exact (failed_render_keeps_events unclosed_render no_rhai unclosed_rule
           sample_facts H).
Defined.

Lemma run_one_event_per_group_witness :
  List.NoDup (keyed_groups sample_results).
Proof.
  exact (proj1 (run_one_event_per_group Value value_to_value identity_render
                  no_rhai ok_send sample_engine
                  (run Value value_to_value identity_render no_rhai ok_send
                     sample_engine 0 sample_facts).1
                  0 sample_facts sample_results
                  ltac:(vm_compute; reflexivity))).
Defined.

Lemma run_cache_contents_witness :
  rules (run Value value_to_value identity_render no_rhai ok_send
           sample_engine 0 sample_facts).1
  = rules sample_engine.
Proof.
  exact (proj1 (run_cache_contents Value value_to_value identity_render
                  no_rhai ok_send sample_engine
                  (run Value value_to_value identity_render no_rhai ok_send
                     sample_engine 0 sample_facts).1
                  0 sample_facts sample_results
                  ltac:(vm_compute; reflexivity))).
Defined.

Lemma zero_ttl_expires_witness :
  evict 1 zero_ttl_cache !! "g"%string = None.
Proof.
  exact (proj1 (zero_ttl_expires 1 0 5 zero_ttl_cache "g" sample_event
                  ltac:(vm_compute; reflexivity) eq_refl eq_refl)).
Defined.

Lemma add_rules_order_witness :
  exists rrs,
    snd (run Value value_to_value identity_render no_rhai ok_send
           (add_rules sample_engine [sample_rule]) 0 sample_facts) = Ok rrs /\
    all2 (kept_result identity_render no_rhai sample_facts) rrs
      (met_rules no_rhai sample_facts (rules sample_engine) ++
       met_rules no_rhai sample_facts [sample_rule]).
Proof.
  exact (proj1 (add_rules_order Value value_to_value identity_render no_rhai
                  ok_send sample_engine [sample_rule] 0 sample_facts sample_facts
                  eq_refl)).
Defined.
